(** * oh-my-live2d: the notification surface and the widget orchestrator

    A shallow embedding of [modules/tips.ts] (class [Tips]) and of
    [modules/oml2d.ts] (class [OhMyLive2D]).

    Numbers that the code uses as indices, priorities, durations and timer
    handles are integers ([Z]).  Asynchronous methods are run to completion:
    an [await] is the sequencing of the monad, and what the environment
    answers at a suspension point (does the asset load resolve or reject,
    how is the viewport classified, what does a message provider return) is
    an explicit argument.  Calls into collaborators whose code is outside
    the two modules (stage, status bar, model manager, renderer, menus,
    store) are recorded, in order, in a call log. *)

From Stdlib Require Import ZArith List String Bool Lia.
Import ListNotations.
Open Scope string_scope.
Open Scope list_scope.
Open Scope Z_scope.

(** ** Browser timers *)

(** What a pending [setTimeout] callback of [Tips] does when it fires. *)
Inductive TimerAction :=
| HideTips      (* the closure of [showMessage]: hide animation, priority := 0 *)
| ResumeIdle.   (* the closure of [notification]: idlePlayer?.start() *)

Record Timer := mkTimer {
  timer_id : Z;
  timer_delay : Z;
  timer_action : TimerAction
}.

Definition TimerAction_eqb (a b : TimerAction) : bool :=
  match a, b with
  | HideTips, HideTips | ResumeIdle, ResumeIdle => true
  | _, _ => false
  end.

Definition is_hide (t : Timer) : bool := TimerAction_eqb (timer_action t) HideTips.

(** ** Configuration ([options.tips]) *)

(** [idleTips.wordTheDay]: absent or false, [true], or a custom function. *)
Inductive WordTheDay := WtdOff | WtdDefault | WtdCustom.

(** [idleTips.message]: a literal list, a provider function, or undefined. *)
Inductive MessagePool :=
| PoolList (l : list string)
| PoolProvider
| PoolUndefined.

Record IdleTips := mkIdleTips {
  wordTheDay : WordTheDay;
  message : MessagePool;
  idle_duration : Z;
  idle_interval : Z;
  idle_priority : Z
}.

Record TipsOptions := mkTipsOptions {
  idleTips : IdleTips;
  copy_message : list string;
  copy_duration : Z;
  copy_priority : Z
}.

(** What the outside world answers on one tick of the idle player. *)
Record TickEnv := mkTickEnv {
  wordTheDayResult : string;   (* what [getWordTheDay] resolves to *)
  providerResult : string;     (* what [messages()] resolves to *)
  randomPick : nat             (* the draw of [getRandomArrayItem] *)
}.

(** [getRandomArrayItem] of the utility library: an element of the array
    chosen by the draw, [undefined] on an empty array. *)
Definition getRandomArrayItem (l : list string) (pick : nat) : option string :=
  match l with
  | [] => None
  | _ => nth_error l (Nat.modulo pick (List.length l))
  end.

(** JavaScript [x || ''] on an optional string. *)
Definition or_empty (o : option string) : string :=
  match o with
  | Some s => s
  | None => ""
  end.

(** Truthiness of a JavaScript string. *)
Definition truthy_string (s : string) : bool := negb (String.eqb s "").

Module Tips.

Record t := mk {
  content : string;            (* contentElement.innerHTML *)
  animationName : string;      (* style.animationName; the rest of the style is not kept *)
  priority : Z;
  closeTimer : Z;
  transitionTime : Z;
  idlePlayer : option bool;    (* the interval timer, if created, and what was
                                  last asked of it: start() (true), stop() (false) *)
  timers : list Timer;         (* pending timeouts *)
  nextTimer : Z                (* the handle the next setTimeout returns *)
}.

Definition set_content (s : string) (x : t) : t :=
  mk s (animationName x) (priority x) (closeTimer x) (transitionTime x)
     (idlePlayer x) (timers x) (nextTimer x).
Definition set_animationName (s : string) (x : t) : t :=
  mk (content x) s (priority x) (closeTimer x) (transitionTime x)
     (idlePlayer x) (timers x) (nextTimer x).
Definition set_priority (p : Z) (x : t) : t :=
  mk (content x) (animationName x) p (closeTimer x) (transitionTime x)
     (idlePlayer x) (timers x) (nextTimer x).
Definition set_closeTimer (c : Z) (x : t) : t :=
  mk (content x) (animationName x) (priority x) c (transitionTime x)
     (idlePlayer x) (timers x) (nextTimer x).
Definition set_idlePlayer (i : option bool) (x : t) : t :=
  mk (content x) (animationName x) (priority x) (closeTimer x) (transitionTime x)
     i (timers x) (nextTimer x).
Definition set_timers (l : list Timer) (x : t) : t :=
  mk (content x) (animationName x) (priority x) (closeTimer x) (transitionTime x)
     (idlePlayer x) l (nextTimer x).
Definition set_nextTimer (n : Z) (x : t) : t :=
  mk (content x) (animationName x) (priority x) (closeTimer x) (transitionTime x)
     (idlePlayer x) (timers x) n.

Definition display_animation := "oml2d-display-tips,oml2d-shake-tips".
Definition hidden_animation := "oml2d-hidden-tips,oml2d-shake-tips".

(** [clearTimeout(id)]: the pending timeout with that handle, if any, is
    dropped; other handles are untouched. *)
Definition clearTimeout (id : Z) (x : t) : t :=
  set_timers (filter (fun tm => negb (timer_id tm =? id)) (timers x)) x.

(** [setTimeout(action, delay)]: returns a fresh handle. *)
Definition setTimeout (a : TimerAction) (delay : Z) (x : t) : Z * t :=
  let id := nextTimer x in
  (id, set_nextTimer (id + 1) (set_timers (timers x ++ [mkTimer id delay a]) x)).

(** [idlePlayer?.stop()] and [idlePlayer?.start()]: nothing happens without
    a timer; with one, the call is what was last asked of it. *)
Definition idle_stop (x : t) : t :=
  match idlePlayer x with
  | Some _ => set_idlePlayer (Some false) x
  | None => x
  end.
Definition idle_start (x : t) : t :=
  match idlePlayer x with
  | Some _ => set_idlePlayer (Some true) x
  | None => x
  end.

(** tips.ts, [showMessage]. *)
Definition showMessage (msg : string) (duration prio : Z) (x : t) : t :=
  if prio <? priority x then x
  else
    let x := set_priority prio x in
    let x := if closeTimer x =? 0 then x else clearTimeout (closeTimer x) x in
    let x := set_content msg x in
    let x := set_animationName display_animation x in
    let '(id, x) := setTimeout HideTips duration x in
    set_closeTimer id x.

(** The body of the timeout that [showMessage] schedules. *)
Definition hide (x : t) : t :=
  set_priority 0 (set_animationName hidden_animation x).

(** tips.ts, [clear]. *)
Definition clear (x : t) : t :=
  let x := set_animationName hidden_animation x in
  let x := idle_stop x in
  let x := clearTimeout (closeTimer x) x in
  set_priority 0 x.

(** tips.ts, [notification]. *)
Definition notification (msg : string) (duration prio : Z) (x : t) : t :=
  let x := idle_stop x in
  let x := showMessage msg duration prio x in
  snd (setTimeout ResumeIdle (duration + transitionTime x) x).

(** tips.ts, [copy]. *)
Definition copy (o : TipsOptions) (pick : nat) (x : t) : t :=
  match copy_message o with
  | [] => x
  | l => notification (or_empty (getRandomArrayItem l pick))
                      (copy_duration o) (copy_priority o) x
  end.

(** A pending timeout fires: it leaves the queue and its closure runs.
    Firing a handle that is not pending does nothing. *)
Definition run_action (a : TimerAction) (x : t) : t :=
  match a with
  | HideTips => hide x
  | ResumeIdle => idle_start x
  end.

Definition fire (id : Z) (x : t) : t :=
  match find (fun tm => timer_id tm =? id) (timers x) with
  | Some tm => run_action (timer_action tm) (clearTimeout id x)
  | None => x
  end.

(** The message the callback of [createIdleMessagePlayer] resolves on a
    tick. *)
Definition idle_message (o : IdleTips) (e : TickEnv) : string :=
  match wordTheDay o with
  | WtdCustom | WtdDefault => wordTheDayResult e
  | WtdOff =>
      match message o with
      | PoolProvider => providerResult e
      | PoolList l => or_empty (getRandomArrayItem l (randomPick e))
      | PoolUndefined => or_empty (getRandomArrayItem [] (randomPick e))
      end
  end.

(** One run of the interval callback.  Resolving the message touches
    nothing of the surface; what follows the last await is either
    [showMessage] or [timer.stop()], a call on the timer like any other
    [stop()]: whether the library then refrains from calling the callback
    again is not assumed (see [tick]). *)
Definition idle_callback (o : IdleTips) (e : TickEnv) (x : t) : t :=
  let m := idle_message o e in
  if truthy_string m
  then showMessage m (idle_duration o) (idle_priority o) x
  else idle_stop x.

(** One tick: the timer calls the callback and the callback completes.
    [setIntervalAsync] belongs to a library outside these sources, and
    nothing is assumed of when it ticks: a tick is possible whenever the
    timer exists, whatever was last asked of it, which also covers a
    callback that was already awaiting its message when [stop()] came. *)
Definition tick (o : IdleTips) (e : TickEnv) (x : t) : t :=
  match idlePlayer x with
  | Some _ => idle_callback o e x
  | None => x
  end.

Definition ticks (o : IdleTips) (es : list TickEnv) (x : t) : t :=
  fold_left (fun acc e => tick o e acc) es x.

(** What can happen to the surface during an execution. *)
Inductive Event :=
| EvTick (e : TickEnv)                       (* the interval timer ticks *)
| EvStart                                    (* idlePlayer?.start() *)
| EvStop                                     (* idlePlayer?.stop() *)
| EvShow (msg : string) (duration prio : Z)  (* showMessage *)
| EvNotify (msg : string) (duration prio : Z)(* notification *)
| EvClear                                    (* clear *)
| EvFire (id : Z).                           (* a pending timeout fires *)

Definition step (o : IdleTips) (ev : Event) (x : t) : t :=
  match ev with
  | EvTick e => tick o e x
  | EvStart => idle_start x
  | EvStop => idle_stop x
  | EvShow m d p => showMessage m d p x
  | EvNotify m d p => notification m d p x
  | EvClear => clear x
  | EvFire id => fire id x
  end.

Definition run (o : IdleTips) (evs : list Event) (x : t) : t :=
  fold_left (fun acc ev => step o ev acc) evs x.

(** The message the idle player passes to [showMessage] at an event. *)
Definition idle_output (o : IdleTips) (ev : Event) (x : t) : list string :=
  match ev, idlePlayer x with
  | EvTick e, Some _ =>
      let m := idle_message o e in
      if truthy_string m then [m] else []
  | _, _ => []
  end.

Fixpoint idle_messages (o : IdleTips) (evs : list Event) (x : t) : list string :=
  match evs with
  | [] => []
  | ev :: rest => idle_output o ev x ++ idle_messages o rest (step o ev x)
  end.

(** Does every tick of the execution come while the last call on the
    timer was [start()]?  These are the executions of a timer that a
    [stop()] silences at once; the executions of [run] are all of them. *)
Fixpoint ticks_while_started (o : IdleTips) (evs : list Event) (x : t) : bool :=
  match evs with
  | [] => true
  | ev :: rest =>
      match ev, idlePlayer x with
      | EvTick _, Some true => true
      | EvTick _, _ => false
      | _, _ => true
      end && ticks_while_started o rest (step o ev x)
  end.

(** The pending auto-hide timeouts. *)
Definition pending_hides (x : t) : list Timer := filter is_hide (timers x).
Definition pending_others (x : t) : list Timer :=
  filter (fun tm => negb (is_hide tm)) (timers x).

(** Handles are positive and below the next fresh one, and a pending
    timeout is an auto-hide exactly when [closeTimer] names it. *)
Definition wf (x : t) : Prop :=
  0 <= closeTimer x < nextTimer x /\
  (forall tm, In tm (timers x) -> 0 < timer_id tm < nextTimer x) /\
  (forall tm, In tm (timers x) ->
              is_hide tm = true <-> timer_id tm = closeTimer x).

(** A freshly constructed surface: nothing shown, no timeout pending. *)
Definition init (tt0 : Z) (player : option bool) : t :=
  mk "" "" 0 0 tt0 player [] 1.

End Tips.

(** ** Configuration ([options]) *)

(** [models[i].path]: one asset path, or an array of clothes variants. *)
Inductive ModelPath :=
| PathOne (p : string)
| PathMany (ps : list string).

Record ModelOptions := mkModel {
  name : string;
  path : ModelPath
}.

Record Options := mkOptions {
  models : list ModelOptions;
  mobileDisplay : bool;
  initialStatusSleep : bool;         (* options.initialStatus == 'sleep' *)
  switchingMessage : string;         (* options.statusBar.switchingMessage *)
  restMessage : string;              (* options.statusBar.restMessage *)
  tipsOptions : option TipsOptions   (* options.tips *)
}.

(** The classes [getWindowSizeType] distinguishes; the code only compares
    with [mobile]. *)
Inductive WindowSizeType := mobile | tablet | laptop | desktop.

(** What the outside world answers during one run of the transition
    workflow. *)
Record RunEnv := mkRunEnv {
  windowSizeType : WindowSizeType;   (* getWindowSizeType() *)
  loadResolves : bool                (* does models.create() resolve? *)
}.

(** The closures the orchestrator hands out, by what they do. *)
Inductive RetryCallback := RetryReloadModel.   (* () => void this.reloadModel() *)
Inductive LoadCallback :=
| CbSlideIn      (* () => { this.stage.slideIn(); } *)
| CbInitial.     (* the closure of initialize() *)

(** Calls into the collaborators, as the orchestrator issues them. *)
Inductive Call :=
| tips_clear
| tips_reload
| idlePlayer_start
| stage_slideOut
| stage_slideIn
| stage_reloadStyle
| statusBar_rest
| statusBar_showLoading
| statusBar_hideLoading
| statusBar_loadingError (retry : RetryCallback)
| statusBar_open (msg : string)
| statusBar_setClickEvent
| models_create
| models_settingModel
| models_removeHitAreaFrames
| models_addHitAreaFrames
| pixiApp_mount
| pixiApp_resize
| menus_reload
| store_updateModelCurrentIndex (i : Z)
| store_updateModelCurrentClothesIndex (i : Z).

(** JavaScript [x || 0] on an optional number. *)
Definition or_zero (o : option Z) : Z :=
  match o with
  | Some n => n
  | None => 0
  end.

(** [Array.prototype.findIndex]: the first position whose element
    satisfies the predicate, -1 when there is none. *)
Fixpoint findIndex_from {A} (p : A -> bool) (l : list A) (i : Z) : Z :=
  match l with
  | [] => -1
  | x :: r => if p x then i else findIndex_from p r (i + 1)
  end.

Definition findIndex {A} (p : A -> bool) (l : list A) : Z := findIndex_from p l 0.

(** [a[i]]: [undefined] outside the array. *)
Definition index {A} (l : list A) (i : Z) : option A :=
  if (0 <=? i) && (i <? Z.of_nat (List.length l))
  then nth_error l (Z.to_nat i)
  else None.

(** The number of clothes variants of a catalog entry. *)
Definition variants (m : ModelOptions) : Z :=
  match path m with
  | PathOne _ => 1
  | PathMany ps => Z.of_nat (List.length ps)
  end.

Module Oml2d.

Record t := mk {
  options : Options;
  currentModelIndex : Z;
  currentModelClothesIndex : Z;
  stage_modelIndex : Z;              (* stage.modelIndex *)
  models_modelIndex : Z;             (* models.modelIndex *)
  models_modelClothesIndex : Z;      (* models.modelClothesIndex *)
  store_modelIndex : Z;              (* the persisted model index *)
  store_modelClothesIndex : Z;       (* the persisted clothes index *)
  pixiApp : bool;                    (* has create() set this.pixiApp? *)
  retry : option RetryCallback;      (* what the status bar would run on retry *)
  tips : Tips.t;
  log : list Call
}.

(** A JavaScript exception reaching the caller. *)
Inductive Error := TypeError.

Inductive Res (A : Type) :=
| Ok (a : A) (s : t)
| Throw (e : Error) (s : t).
Arguments Ok {A} a s.
Arguments Throw {A} e s.

Definition M (A : Type) := t -> Res A.

Definition ret {A} (a : A) : M A := fun s => Ok a s.
Definition bind {A B} (c : M A) (k : A -> M B) : M B :=
  fun s => match c s with
           | Ok a s' => k a s'
           | Throw e s' => Throw e s'
           end.
Definition throw {A} (e : Error) : M A := fun s => Throw e s.
Definition gets {A} (f : t -> A) : M A := fun s => Ok (f s) s.
Definition modify (f : t -> t) : M unit := fun s => Ok tt (f s).

Definition state_of {A} (r : Res A) : t :=
  match r with
  | Ok _ s => s
  | Throw _ s => s
  end.

Definition returns {A} (r : Res A) : bool :=
  match r with
  | Ok _ _ => true
  | Throw _ _ => false
  end.

Notation "x <- c ;; k" := (bind c (fun x => k))
  (at level 61, c at next level, right associativity).
Notation "c ;; k" := (bind c (fun _ => k))
  (at level 61, right associativity).

Definition call (c : Call) : M unit :=
  modify (fun s =>
    mk (options s) (currentModelIndex s) (currentModelClothesIndex s)
       (stage_modelIndex s) (models_modelIndex s) (models_modelClothesIndex s)
       (store_modelIndex s) (store_modelClothesIndex s) (pixiApp s) (retry s)
       (tips s) (log s ++ [c])).

Definition on_tips (f : Tips.t -> Tips.t) : M unit :=
  modify (fun s =>
    mk (options s) (currentModelIndex s) (currentModelClothesIndex s)
       (stage_modelIndex s) (models_modelIndex s) (models_modelClothesIndex s)
       (store_modelIndex s) (store_modelClothesIndex s) (pixiApp s) (retry s)
       (f (tips s)) (log s)).

(** [set modelIndex(index)]: own field, stage, model manager, store. *)
Definition set_modelIndex (i : Z) : M unit :=
  modify (fun s =>
    mk (options s) i (currentModelClothesIndex s)
       i i (models_modelClothesIndex s)
       i (store_modelClothesIndex s) (pixiApp s) (retry s)
       (tips s) (log s)) ;;
  call (store_updateModelCurrentIndex i).

(** [get modelIndex()]. *)
Definition modelIndex : M Z := gets currentModelIndex.

(** [set modelClothesIndex(index)]: own field, model manager, store. *)
Definition set_modelClothesIndex (i : Z) : M unit :=
  modify (fun s =>
    mk (options s) (currentModelIndex s) i
       (stage_modelIndex s) (models_modelIndex s) i
       (store_modelIndex s) i (pixiApp s) (retry s)
       (tips s) (log s)) ;;
  call (store_updateModelCurrentClothesIndex i).

(** [get modelClothesIndex()]. *)
Definition modelClothesIndex : M Z := gets currentModelClothesIndex.

(** [statusBar.loadingError(cb)]: the status bar keeps the retry action. *)
Definition statusBar_loadingError_ (cb : RetryCallback) : M unit :=
  modify (fun s =>
    mk (options s) (currentModelIndex s) (currentModelClothesIndex s)
       (stage_modelIndex s) (models_modelIndex s) (models_modelClothesIndex s)
       (store_modelIndex s) (store_modelClothesIndex s) (pixiApp s) (Some cb)
       (tips s) (log s)) ;;
  call (statusBar_loadingError cb).

(** [this.tips.clear()]. *)
Definition tips_clear_ : M unit :=
  on_tips Tips.clear ;; call tips_clear.

(** Is there an idle player at all ([this.tips.idlePlayer] defined)? *)
Definition has_idlePlayer (x : Tips.t) : bool :=
  match Tips.idlePlayer x with
  | Some _ => true
  | None => false
  end.

(** [this.tips.idlePlayer?.start()]: no call without an idle player. *)
Definition idlePlayer_start_ : M unit :=
  x <- gets tips ;;
  if has_idlePlayer x
  then on_tips Tips.idle_start ;; call idlePlayer_start
  else ret tt.

(** [this.pixiApp?.f(...)]. *)
Definition on_pixiApp (c : Call) : M unit :=
  p <- gets pixiApp ;;
  if p then call c else ret tt.

Definition length_models (o : Options) : Z := Z.of_nat (List.length (models o)).

(** [get mobileHidden()]. *)
Definition mobileHidden (e : RunEnv) : M bool :=
  o <- gets options ;;
  ret (negb (mobileDisplay o) &&
       match windowSizeType e with mobile => true | _ => false end).

(** The two closures passed to [loadModel]. *)
Definition run_callback (cb : LoadCallback) : M unit :=
  match cb with
  | CbSlideIn => call stage_slideIn
  | CbInitial =>
      o <- gets options ;;
      if initialStatusSleep o then
        tips_clear_ ;;
        call (statusBar_open (restMessage o)) ;;
        call statusBar_setClickEvent
      else call stage_slideIn
  end.

(** oml2d.ts, [loadModel].  [menus.reload] and [tips.reload] are methods
    outside these sources (they re-attach the two surfaces to the stage
    element); they are recorded as calls. *)
Definition loadModel (e : RunEnv) (callback : LoadCallback) : M unit :=
  tips_clear_ ;;
  call stage_slideOut ;;
  o <- gets options ;;
  if length_models o =? 0 then ret tt
  else
    hidden <- mobileHidden e ;;
    if hidden then call statusBar_rest
    else
      call statusBar_showLoading ;;
      call models_create ;;
      (* .catch(...) *)
      (if loadResolves e then ret tt
       else statusBar_loadingError_ RetryReloadModel) ;;
      (* .then(...) *)
      on_pixiApp pixiApp_mount ;;
      call menus_reload ;;
      call tips_reload ;;
      call models_settingModel ;;
      call stage_reloadStyle ;;
      on_pixiApp pixiApp_resize ;;
      call statusBar_hideLoading ;;
      run_callback callback.

(** oml2d.ts, [reloadModel]. *)
Definition reloadModel (e : RunEnv) : M unit :=
  loadModel e CbSlideIn ;;
  idlePlayer_start_.

(** oml2d.ts, [loadRandomModel]; [r] is what [getRandomIndex] returned. *)
Definition loadRandomModel (e : RunEnv) (r : Z) : M unit :=
  set_modelIndex r ;;
  set_modelClothesIndex 0 ;;
  o <- gets options ;;
  call (statusBar_open (switchingMessage o)) ;;
  loadModel e CbSlideIn ;;
  idlePlayer_start_.

(** [++this.modelIndex]: read through the getter, write through the
    setter, the value of the expression is the new number. *)
Definition pre_increment_modelIndex : M Z :=
  i <- modelIndex ;;
  set_modelIndex (i + 1) ;;
  ret (i + 1).

Definition pre_increment_modelClothesIndex : M Z :=
  i <- modelClothesIndex ;;
  set_modelClothesIndex (i + 1) ;;
  ret (i + 1).

(** oml2d.ts, [loadNextModel]. *)
Definition loadNextModel (e : RunEnv) : M unit :=
  i <- pre_increment_modelIndex ;;
  o <- gets options ;;
  (if i >=? length_models o then set_modelIndex 0 else ret tt) ;;
  set_modelClothesIndex 0 ;;
  call (statusBar_open (switchingMessage o)) ;;
  loadModel e CbSlideIn ;;
  idlePlayer_start_.

(** oml2d.ts, [loadModelByIndex]. *)
Definition loadModelByIndex (e : RunEnv) (i : Z) (clothes : option Z) : M unit :=
  o <- gets options ;;
  if (i >=? 0) && (i <? length_models o) then
    set_modelIndex i ;;
    set_modelClothesIndex (or_zero clothes) ;;
    call (statusBar_open (switchingMessage o)) ;;
    loadModel e CbSlideIn ;;
    idlePlayer_start_
  else ret tt.

(** oml2d.ts, [loadModelByName]. *)
Definition loadModelByName (e : RunEnv) (modelName : string) (clothes : option Z)
  : M unit :=
  o <- gets options ;;
  let targetIndex := findIndex (fun item => String.eqb (name item) modelName) (models o) in
  if targetIndex >? 0 then
    set_modelIndex targetIndex ;;
    set_modelClothesIndex (or_zero clothes) ;;
    call (statusBar_open (switchingMessage o)) ;;
    loadModel e CbSlideIn ;;
    idlePlayer_start_
  else ret tt.

(** oml2d.ts, [loadNextModelClothes]; reading [.path] of an entry that
    does not exist throws. *)
Definition loadNextModelClothes (e : RunEnv) : M unit :=
  o <- gets options ;;
  i <- modelIndex ;;
  match index (models o) i with
  | None => throw TypeError
  | Some m =>
      match path m with
      | PathMany ps =>
          c <- pre_increment_modelClothesIndex ;;
          (if c >=? Z.of_nat (List.length ps) then set_modelClothesIndex 0 else ret tt) ;;
          loadModel e CbSlideIn
      | PathOne _ => ret tt
      end
  end.

(** oml2d.ts, [showModelHitAreaFrames] and [hideModelHitAreaFrames]. *)
Definition showModelHitAreaFrames : M unit := call models_removeHitAreaFrames.
Definition hideModelHitAreaFrames : M unit := call models_addHitAreaFrames.

(** oml2d.ts, [stopTipsIdle], [startTipsIdle], [tipsMessage], [clearTips]. *)
Definition stopTipsIdle : M unit := on_tips Tips.idle_stop.
Definition startTipsIdle : M unit := on_tips Tips.idle_start.
Definition tipsMessage (msg : string) (duration prio : Z) : M unit :=
  on_tips (Tips.notification msg duration prio).
Definition clearTips : M unit := on_tips Tips.clear.

(** The user takes the retry action the status bar offers. *)
Definition run_retry (e : RunEnv) : M unit :=
  r <- gets retry ;;
  match r with
  | Some RetryReloadModel => reloadModel e
  | None => ret tt
  end.

(** One tick of the idle player of [this.tips]. *)
Definition idle_tick (e : TickEnv) : M unit :=
  o <- gets options ;;
  match tipsOptions o with
  | Some to => on_tips (Tips.tick (idleTips to) e)
  | None => ret tt
  end.

(** The switch operations of the public interface, with what the
    environment answers during each. *)
Inductive Op :=
| OpRandom (e : RunEnv) (r : Z)
| OpNext (e : RunEnv)
| OpByIndex (e : RunEnv) (i : Z) (clothes : option Z)
| OpByName (e : RunEnv) (n : string) (clothes : option Z)
| OpNextClothes (e : RunEnv)
| OpReload (e : RunEnv).

Definition run_op (op : Op) : M unit :=
  match op with
  | OpRandom e r => loadRandomModel e r
  | OpNext e => loadNextModel e
  | OpByIndex e i c => loadModelByIndex e i c
  | OpByName e n c => loadModelByName e n c
  | OpNextClothes e => loadNextModelClothes e
  | OpReload e => reloadModel e
  end.

Fixpoint run_ops (ops : list Op) : M unit :=
  match ops with
  | [] => ret tt
  | op :: rest => run_op op ;; run_ops rest
  end.

(** The orchestrator once [create()] and [mount()] are done: the indices
    read from the store have gone through the setters, nothing is shown. *)
Definition mounted (o : Options) (mi ci : Z) : t :=
  mk o mi ci mi mi ci mi ci true None
     (Tips.init 1000 (match tipsOptions o with Some _ => Some false | None => None end))
     [].

(** ** The selection invariant *)

(** [0 <= modelIndex < catalog.length] and
    [0 <= clothesIndex < variants(modelIndex)]. *)
Definition in_range (o : Options) (mi ci : Z) : Prop :=
  0 <= mi < length_models o /\
  exists m, index (models o) mi = Some m /\ 0 <= ci < variants m.

Definition selection_ok (s : t) : Prop :=
  in_range (options s) (currentModelIndex s) (currentModelClothesIndex s).

(** The mirrors in stage, model manager and store agree with the
    orchestrator's own fields. *)
Definition synced (s : t) : Prop :=
  stage_modelIndex s = currentModelIndex s /\
  models_modelIndex s = currentModelIndex s /\
  store_modelIndex s = currentModelIndex s /\
  models_modelClothesIndex s = currentModelClothesIndex s /\
  store_modelClothesIndex s = currentModelClothesIndex s.

(** The values the setters wrote to the store, in order. *)
Definition written_modelIndex (c : Call) : option Z :=
  match c with
  | store_updateModelCurrentIndex i => Some i
  | _ => None
  end.

Definition written_modelIndexes (l : list Call) : list Z :=
  flat_map (fun c => match written_modelIndex c with Some i => [i] | None => [] end) l.

Definition written_clothesIndex (c : Call) : option Z :=
  match c with
  | store_updateModelCurrentClothesIndex i => Some i
  | _ => None
  end.

Definition written_clothesIndexes (l : list Call) : list Z :=
  flat_map (fun c => match written_clothesIndex c with Some i => [i] | None => [] end) l.

End Oml2d.

(** ** Auxiliary notions and sample configurations *)

(** The second state has the selection, its mirrors and the configuration
    of the first. *)
Definition same_selection (s s' : Oml2d.t) : Prop :=
  Oml2d.options s' = Oml2d.options s /\
  Oml2d.currentModelIndex s' = Oml2d.currentModelIndex s /\
  Oml2d.currentModelClothesIndex s' = Oml2d.currentModelClothesIndex s /\
  Oml2d.stage_modelIndex s' = Oml2d.stage_modelIndex s /\
  Oml2d.models_modelIndex s' = Oml2d.models_modelIndex s /\
  Oml2d.models_modelClothesIndex s' = Oml2d.models_modelClothesIndex s /\
  Oml2d.store_modelIndex s' = Oml2d.store_modelIndex s /\
  Oml2d.store_modelClothesIndex s' = Oml2d.store_modelClothesIndex s /\
  Oml2d.pixiApp s' = Oml2d.pixiApp s.

(** Every catalog entry has at least one asset path. *)
Definition catalog_ok (o : Options) : Prop :=
  forall m, In m (models o) -> 0 < variants m.

(** The arguments of a switch operation name an existing selection: the
    index [getRandomIndex] returns is inside the catalog, and a clothes
    index given explicitly exists for the model it is given for. *)
Definition op_ok (o : Options) (op : Oml2d.Op) : Prop :=
  match op with
  | Oml2d.OpRandom _ r => 0 <= r < Oml2d.length_models o
  | Oml2d.OpByIndex _ i c =>
      forall m, index (models o) i = Some m -> 0 <= or_zero c < variants m
  | Oml2d.OpByName _ n c =>
      forall m,
        index (models o) (findIndex (fun item => String.eqb (name item) n) (models o))
        = Some m -> 0 <= or_zero c < variants m
  | _ => True
  end.

(** The calls of the success continuation of [loadModel], up to the
    callback. *)
Definition mount_calls (pixi : bool) : list Call :=
  (if pixi then [pixiApp_mount] else []) ++
  [menus_reload; tips_reload; models_settingModel; stage_reloadStyle] ++
  (if pixi then [pixiApp_resize] else []) ++
  [statusBar_hideLoading].

Definition sample_idleTips : IdleTips :=
  mkIdleTips WtdOff PoolProvider 3000 8000 2.

Definition sample_tips : TipsOptions :=
  mkTipsOptions sample_idleTips [] 3000 3.

Definition options_of (catalog : list ModelOptions) (mobileDisplay : bool) : Options :=
  mkOptions catalog mobileDisplay false "switching" "resting" (Some sample_tips).

(** Scenario A: a single model named A. *)
Definition catalog_A : list ModelOptions := [mkModel "A" (PathOne "a.model")].

(** Scenario B: two models; the second has two clothes variants. *)
Definition catalog_AB : list ModelOptions :=
  [mkModel "A" (PathOne "a.model"); mkModel "B" (PathMany ["b1.model"; "b2.model"])].

Definition env_pc_ok : RunEnv := mkRunEnv desktop true.
Definition env_pc_fail : RunEnv := mkRunEnv desktop false.
Definition env_mobile : RunEnv := mkRunEnv mobile true.

(** A surface that is showing a message of priority 2. *)
Definition tips_showing : Tips.t :=
  Tips.showMessage "first" 3000 2 (Tips.init 1000 (Some true)).

Definition tick_empty : TickEnv := mkTickEnv "" "" 0.
Definition tick_hello : TickEnv := mkTickEnv "" "hello" 0.

(** No two pending timeouts share a handle. *)
Definition timers_distinct (x : Tips.t) : Prop :=
  NoDup (map timer_id (Tips.timers x)).

(** What holds of the surface along every execution: the timer queue is
    well formed, handles are distinct, and the priority is not negative. *)
Definition sound (x : Tips.t) : Prop :=
  Tips.wf x /\ timers_distinct x /\ 0 <= Tips.priority x.

(** [idlePlayer?.stop()] and [idlePlayer?.start()] on the handle itself. *)
Definition stopped (p : option bool) : option bool :=
  match p with Some _ => Some false | None => None end.
Definition started (p : option bool) : option bool :=
  match p with Some _ => Some true | None => None end.

(** After the operation that led to the second state the idle player, if
    there is one, was last asked to start, and that was the operation's
    last call; without an idle player no such call was made.  No tip
    priority is held. *)
Definition restarted (s s' : Oml2d.t) : Prop :=
  Tips.idlePlayer (Oml2d.tips s') = started (Tips.idlePlayer (Oml2d.tips s)) /\
  Tips.priority (Oml2d.tips s') = 0 /\
  exists calls,
    Oml2d.log s' = Oml2d.log s ++ calls /\
    match Tips.idlePlayer (Oml2d.tips s) with
    | Some _ => exists before, calls = before ++ [idlePlayer_start]
    | None => ~ In idlePlayer_start calls
    end.

(** The idle tips of the default options: an empty message list. *)
Definition default_idleTips : IdleTips :=
  mkIdleTips WtdOff (PoolList []) 3000 8000 2.

Definition literal_idleTips : IdleTips :=
  mkIdleTips WtdOff (PoolList ["hi"; "there"]) 3000 8000 2.

Definition copy_tips : TipsOptions :=
  mkTipsOptions sample_idleTips ["copied"; "thanks"] 3000 3.

(** A configuration without a tips section: no idle player is created. *)
Definition options_no_tips : Options :=
  mkOptions catalog_AB true false "switching" "resting" None.

(** A configuration whose initial status is 'sleep'. *)
Definition sleeping_options : Options :=
  mkOptions catalog_A true true "switching" "resting" (Some sample_tips).

(** * Properties *)

(** ** The notification surface *)

Section TipsFacts.

Import Tips.

Lemma wf_init tt0 player : wf (init tt0 player).
Proof.
  unfold wf, init; simpl. split; [lia|]. split; intros tm [].
Qed.

Lemma filter_other_id (l : list Timer) (c : Z) :
  (forall tm, In tm l -> is_hide tm = true <-> timer_id tm = c) ->
  filter (fun tm => negb (timer_id tm =? c)) l = filter (fun tm => negb (is_hide tm)) l.
Proof.
  intros H. apply filter_ext_in. intros tm Hin.
  destruct (H tm Hin) as [H1 H2].
  destruct (Z.eqb_spec (timer_id tm) c) as [E|E].
  - now rewrite (H2 E).
  - destruct (is_hide tm); [exfalso; now apply E, H1 | reflexivity].
Qed.

Lemma filter_hide_none (l : list Timer) :
  filter is_hide (filter (fun tm => negb (is_hide tm)) l) = [].
Proof.
  induction l as [|tm l IH]; simpl; [reflexivity|].
  destruct (is_hide tm) eqn:E; simpl; [exact IH | now rewrite E].
Qed.

Lemma filter_other_idem (l : list Timer) :
  filter (fun tm => negb (is_hide tm)) (filter (fun tm => negb (is_hide tm)) l)
  = filter (fun tm => negb (is_hide tm)) l.
Proof.
  induction l as [|tm l IH]; simpl; [reflexivity|].
  destruct (is_hide tm) eqn:E; simpl; [exact IH | now rewrite E, IH].
Qed.

(** A rejected message changes nothing at all. *)
Lemma showMessage_rejected msg d p x :
  p < priority x -> showMessage msg d p x = x.
Proof.
  intros H. unfold showMessage.
  destruct (Z.ltb_spec p (priority x)); [reflexivity | lia].
Qed.

(** An accepted message, field by field. *)
Lemma showMessage_accepted msg d p x :
  wf x -> priority x <= p ->
  showMessage msg d p x
  = mk msg display_animation p (nextTimer x) (transitionTime x) (idlePlayer x)
       (pending_others x ++ [mkTimer (nextTimer x) d HideTips]) (nextTimer x + 1).
Proof.
  intros (Hc & Hid & Hh) Hp. unfold showMessage.
  destruct (Z.ltb_spec p (priority x)); [lia|]. simpl.
  destruct (Z.eqb_spec (closeTimer x) 0) as [E|E]; simpl;
    unfold set_closeTimer, set_nextTimer, set_timers; simpl; f_equal; f_equal.
  - unfold pending_others.
    rewrite <- (filter_other_id _ (closeTimer x) Hh).
    symmetry. apply forallb_filter_id. apply forallb_forall. intros tm Hin.
    specialize (Hid tm Hin).
    destruct (Z.eqb_spec (timer_id tm) (closeTimer x)); [lia | reflexivity].
  - unfold pending_others. now apply filter_other_id.
Qed.

Lemma in_pending_others tm x :
  In tm (pending_others x) -> In tm (timers x) /\ is_hide tm = false.
Proof.
  unfold pending_others. rewrite filter_In. intros [H1 H2]. split; [exact H1|].
  now destruct (is_hide tm).
Qed.

Lemma wf_showMessage msg d p x : wf x -> wf (showMessage msg d p x).
Proof.
  intros Hwf. destruct (Z.lt_ge_cases p (priority x)) as [Hp|Hp].
  - now rewrite showMessage_rejected.
  - rewrite showMessage_accepted by assumption.
    destruct Hwf as (Hc & Hid & Hh). unfold wf; simpl.
    split; [lia|]. split; intros tm Hin; apply in_app_or in Hin;
      destruct Hin as [Hin|[<-|[]]]; simpl; try lia.
    + apply in_pending_others in Hin. destruct Hin as [Hin _].
      specialize (Hid tm Hin). lia.
    + apply in_pending_others in Hin. destruct Hin as [Hin Hf].
      specialize (Hid tm Hin). rewrite Hf. split; [discriminate | lia].
    + split; reflexivity.
Qed.

Lemma wf_idle_stop x : wf x -> wf (idle_stop x).
Proof. unfold idle_stop. now destruct (idlePlayer x). Qed.

Lemma wf_idle_start x : wf x -> wf (idle_start x).
Proof. unfold idle_start. now destruct (idlePlayer x). Qed.

Lemma wf_clearTimeout id x : wf x -> wf (clearTimeout id x).
Proof.
  intros (Hc & Hid & Hh). unfold wf, clearTimeout; simpl.
  split; [exact Hc|].
  split; intros tm Hin; apply filter_In in Hin; destruct Hin as [Hin _]; auto.
Qed.

Lemma wf_hide x : wf x -> wf (hide x).
Proof. intros H; exact H. Qed.

Lemma wf_clear x : wf x -> wf (clear x).
Proof.
  intros H. unfold clear.
  assert (H1 : wf (idle_stop (set_animationName hidden_animation x)))
    by (apply wf_idle_stop; exact H).
  exact (wf_clearTimeout _ _ H1).
Qed.

Lemma wf_setTimeout_resume d x : wf x -> wf (snd (setTimeout ResumeIdle d x)).
Proof.
  intros (Hc & Hid & Hh). unfold wf, setTimeout; simpl.
  split; [lia|]. split; intros tm Hin; apply in_app_or in Hin;
    destruct Hin as [Hin|[<-|[]]]; simpl.
  - specialize (Hid tm Hin). lia.
  - lia.
  - now apply Hh.
  - split; [discriminate | lia].
Qed.

Lemma wf_notification msg d p x : wf x -> wf (notification msg d p x).
Proof.
  intros H. unfold notification.
  apply wf_setTimeout_resume, wf_showMessage, wf_idle_stop, H.
Qed.

Lemma wf_fire id x : wf x -> wf (fire id x).
Proof.
  intros H. unfold fire.
  destruct (find _ (timers x)) as [tm|]; [|exact H].
  destruct (timer_action tm); simpl.
  - apply wf_hide, wf_clearTimeout, H.
  - apply wf_idle_start, wf_clearTimeout, H.
Qed.

Lemma wf_tick o e x : wf x -> wf (tick o e x).
Proof.
  intros H. unfold tick, idle_callback.
  destruct (idlePlayer x) as [b|]; try exact H.
  destruct (truthy_string _); [apply wf_showMessage | apply wf_idle_stop]; exact H.
Qed.

(** The invariant holds along every execution from a fresh surface. *)
Lemma wf_step o ev x : wf x -> wf (step o ev x).
Proof.
  intros H. destruct ev; simpl.
  - now apply wf_tick.
  - now apply wf_idle_start.
  - now apply wf_idle_stop.
  - now apply wf_showMessage.
  - now apply wf_notification.
  - now apply wf_clear.
  - now apply wf_fire.
Qed.

Lemma wf_run o evs : forall x, wf x -> wf (run o evs x).
Proof.
  unfold run. induction evs as [|ev evs IH]; intros x H; simpl; [exact H|].
  apply IH, wf_step, H.
Qed.

(** C3. [showMessage(message, duration, priority)]: below the current
    priority the call changes nothing (content, priority and the timeout
    queue are as before); otherwise no earlier auto-hide timeout stays
    pending, the content is the message, the current priority is the
    given one, and exactly one auto-hide timeout is pending, with the
    given delay, whose firing puts the priority back to 0 and plays the
    hide animation. *)
Theorem showMessage_spec msg d p x :
  wf x ->
  (p < priority x -> showMessage msg d p x = x) /\
  (priority x <= p ->
   let x' := showMessage msg d p x in
   content x' = msg /\
   priority x' = p /\
   animationName x' = display_animation /\
   pending_hides x' = [mkTimer (closeTimer x') d HideTips] /\
   ~ In (closeTimer x') (map timer_id (timers x)) /\
   pending_others x' = pending_others x /\
   let x'' := fire (closeTimer x') x' in
   priority x'' = 0 /\
   animationName x'' = hidden_animation /\
   content x'' = msg /\
   pending_hides x'' = []).
Proof.
  intros Hwf. split; [apply showMessage_rejected|].
  intros Hp x'. subst x'. rewrite showMessage_accepted by assumption.
  destruct Hwf as (Hc & Hid & Hh).
  assert (Hfresh : forall l, (forall tm, In tm l -> 0 < timer_id tm < nextTimer x) ->
            filter (fun tm => negb (timer_id tm =? nextTimer x)) l = l).
  { intros l Hl. apply forallb_filter_id, forallb_forall. intros tm Hin.
    specialize (Hl tm Hin).
    destruct (Z.eqb_spec (timer_id tm) (nextTimer x)); [lia | reflexivity]. }
  assert (Hfind : forall l, (forall tm, In tm l -> 0 < timer_id tm < nextTimer x) ->
            find (fun tm => timer_id tm =? nextTimer x)
                 (l ++ [mkTimer (nextTimer x) d HideTips])
            = Some (mkTimer (nextTimer x) d HideTips)).
  { induction l as [|tm l IH]; intros Hl; simpl.
    - now rewrite Z.eqb_refl.
    - destruct (Z.eqb_spec (timer_id tm) (nextTimer x)) as [E|E].
      + specialize (Hl tm (or_introl eq_refl)). lia.
      + apply IH. intros tm' Hin. apply Hl. now right. }
  assert (Hoth : forall tm, In tm (pending_others x) -> 0 < timer_id tm < nextTimer x).
  { intros tm Hin. apply in_pending_others in Hin. now apply Hid. }
  simpl. repeat split.
  - unfold pending_hides, pending_others; simpl.
    rewrite filter_app, filter_hide_none. reflexivity.
  - rewrite in_map_iff. intros (tm & E & Hin). specialize (Hid tm Hin). lia.
  - unfold pending_others; simpl.
    rewrite filter_app, filter_other_idem. simpl. now rewrite app_nil_r.
  - unfold fire; simpl. rewrite (Hfind _ Hoth). reflexivity.
  - unfold fire; simpl. rewrite (Hfind _ Hoth). reflexivity.
  - unfold fire; simpl. rewrite (Hfind _ Hoth). reflexivity.
  - unfold fire; simpl. rewrite (Hfind _ Hoth). simpl.
    unfold pending_hides, clearTimeout; simpl.
    rewrite filter_app, (Hfresh _ Hoth). simpl. rewrite Z.eqb_refl. simpl.
    rewrite app_nil_r. apply filter_hide_none.
Qed.

(** *** Further properties of the surface *)

Lemma filter_idem {A} (f : A -> bool) (l : list A) :
  filter f (filter f l) = filter f l.
Proof.
  induction l as [|a l IH]; simpl; [reflexivity|].
  destruct (f a) eqn:E; simpl; [now rewrite E, IH | exact IH].
Qed.

Lemma idlePlayer_idle_stop_eq x : idlePlayer (idle_stop x) = stopped (idlePlayer x).
Proof. unfold idle_stop. destruct (idlePlayer x) eqn:E; [reflexivity | now rewrite E]. Qed.

Lemma idlePlayer_idle_start_eq x : idlePlayer (idle_start x) = started (idlePlayer x).
Proof. unfold idle_start. destruct (idlePlayer x) eqn:E; [reflexivity | now rewrite E]. Qed.

Lemma idle_stop_fields x :
  content (idle_stop x) = content x /\ animationName (idle_stop x) = animationName x /\
  priority (idle_stop x) = priority x /\ closeTimer (idle_stop x) = closeTimer x /\
  transitionTime (idle_stop x) = transitionTime x /\ timers (idle_stop x) = timers x /\
  nextTimer (idle_stop x) = nextTimer x.
Proof. unfold idle_stop. destruct (idlePlayer x); repeat split. Qed.

(** The queue after [clear]. *)
Lemma timers_clear x :
  wf x -> timers (clear x) = pending_others x.
Proof.
  intros (_ & _ & Hh). unfold clear.
  destruct (idle_stop_fields (set_animationName hidden_animation x))
    as (_ & _ & _ & Hc & _ & Ht & _).
  simpl. rewrite Hc, Ht. simpl. unfold pending_others. now apply filter_other_id.
Qed.

(** X1. [clear()] puts the priority back to 0, plays the hide animation,
    stops the idle player if there is one and cancels the pending
    auto-hide; the content and the other pending timeouts stay, and any
    message of priority 0 or more is shown afterwards. *)
Theorem clear_spec x :
  wf x ->
  priority (clear x) = 0 /\
  animationName (clear x) = hidden_animation /\
  content (clear x) = content x /\
  idlePlayer (clear x) = stopped (idlePlayer x) /\
  pending_hides (clear x) = [] /\
  pending_others (clear x) = pending_others x /\
  (forall msg d p, 0 <= p -> content (showMessage msg d p (clear x)) = msg).
Proof.
  intros Hwf.
  assert (Hp : priority (clear x) = 0) by reflexivity.
  split; [exact Hp|].
  split; [unfold clear, idle_stop; simpl; now destruct (idlePlayer x)|].
  split; [unfold clear, idle_stop; simpl; now destruct (idlePlayer x)|].
  split; [unfold clear; simpl; unfold clearTimeout; simpl;
          apply (idlePlayer_idle_stop_eq (set_animationName hidden_animation x))|].
  split; [unfold pending_hides; rewrite timers_clear by assumption;
          apply filter_hide_none|].
  split; [unfold pending_others at 1; rewrite timers_clear by assumption;
          apply filter_idem|].
  intros msg d p Hge. unfold showMessage. rewrite Hp.
  destruct (Z.ltb_spec p 0); [lia|]. simpl.
  destruct (closeTimer (set_priority p (clear x)) =? 0); reflexivity.
Qed.

Lemma clear_idempotent x : clear (clear x) = clear x.
Proof.
  destruct x as [c a p ct tt0 ip tms nt]. unfold clear, idle_stop, clearTimeout.
  destruct ip; simpl; unfold set_priority, set_timers; simpl;
    now rewrite filter_idem.
Qed.

Lemma find_fresh_None (l : list Timer) id :
  (forall tm, In tm l -> timer_id tm <> id) ->
  find (fun tm => timer_id tm =? id) l = None.
Proof.
  induction l as [|tm l IH]; intros H; simpl; [reflexivity|].
  destruct (Z.eqb_spec (timer_id tm) id) as [E|E].
  - exfalso. exact (H tm (or_introl eq_refl) E).
  - apply IH. intros tm' Hin. apply H. now right.
Qed.

Lemma find_last (l : list Timer) id d a :
  (forall tm, In tm l -> timer_id tm <> id) ->
  find (fun tm => timer_id tm =? id) (l ++ [mkTimer id d a]) = Some (mkTimer id d a).
Proof.
  induction l as [|tm0 l IH]; intros H; simpl.
  - now rewrite Z.eqb_refl.
  - destruct (Z.eqb_spec (timer_id tm0) id) as [E|E].
    + exfalso. exact (H tm0 (or_introl eq_refl) E).
    + apply IH. intros tm' Hin. apply H. now right.
Qed.

Lemma pending_others_app_hide (l : list Timer) tm :
  is_hide tm = true ->
  filter (fun t => negb (is_hide t)) (filter (fun t => negb (is_hide t)) l ++ [tm])
  = filter (fun t => negb (is_hide t)) l.
Proof.
  intros H. rewrite filter_app, filter_idem. simpl. rewrite H. simpl.
  apply app_nil_r.
Qed.

(** X2. A message shown over another one cannot be hidden by the timeout
    of the one it replaced: after two accepted calls the first call's
    handle is no longer pending, so its firing changes nothing; the second
    message stays until its own timeout fires. *)
Theorem stale_timeout_is_harmless m1 d1 p1 m2 d2 p2 x :
  wf x -> priority x <= p1 -> p1 <= p2 ->
  let x1 := showMessage m1 d1 p1 x in
  let x2 := showMessage m2 d2 p2 x1 in
  closeTimer x1 <> closeTimer x2 /\
  fire (closeTimer x1) x2 = x2 /\
  content x2 = m2 /\ priority x2 = p2 /\
  priority (fire (closeTimer x2) x2) = 0.
Proof.
  intros Hwf H1 H2. cbv zeta.
  pose proof (wf_showMessage m1 d1 p1 x Hwf) as Hwf1.
  rewrite (showMessage_accepted m1 d1 p1 x Hwf H1) in Hwf1 |- *.
  rewrite (showMessage_accepted m2 d2 p2 _ Hwf1) by (simpl; lia).
  unfold pending_others. simpl.
  rewrite pending_others_app_hide by reflexivity.
  fold (pending_others x).
  destruct Hwf as (Hc & Hid & Hh).
  assert (Hold : forall tm, In tm (pending_others x) -> 0 < timer_id tm < nextTimer x).
  { intros tm Hin. apply in_pending_others in Hin. now apply Hid. }
  split; [lia|]. split.
  - unfold fire. simpl. rewrite find_fresh_None; [reflexivity|].
    intros tm Hin. apply in_app_or in Hin. destruct Hin as [Hin|[<-|[]]]; simpl.
    + specialize (Hold tm Hin). lia.
    + lia.
  - split; [reflexivity|]. split; [reflexivity|].
    unfold fire. simpl.
    rewrite find_last; [reflexivity|].
    intros tm Hin. specialize (Hold tm Hin). lia.
Qed.

(** *** What every execution keeps *)

Lemma NoDup_map_filter {A B} (f : A -> B) (g : A -> bool) (l : list A) :
  NoDup (map f l) -> NoDup (map f (filter g l)).
Proof.
  induction l as [|a l IH]; simpl; intros H; [constructor|].
  inversion H as [|? ? Hnin Hnd]; subst.
  destruct (g a); simpl; [|now apply IH].
  constructor; [|now apply IH].
  intros Hin. apply Hnin. rewrite in_map_iff in *.
  destruct Hin as (b & Hb & Hin). exists b. split; [exact Hb|].
  now apply filter_In in Hin.
Qed.

Lemma NoDup_map_snoc (l : list Timer) tm :
  NoDup (map timer_id l) ->
  (forall tm', In tm' l -> timer_id tm' <> timer_id tm) ->
  NoDup (map timer_id (l ++ [tm])).
Proof.
  induction l as [|a l IH]; simpl; intros Hnd Hfresh.
  - constructor; [intros [] | constructor].
  - inversion Hnd as [|? ? Hnin Hnd']; subst. constructor.
    + rewrite map_app, in_app_iff. simpl. intros [Hin|[E|[]]].
      * exact (Hnin Hin).
      * exact (Hfresh a (or_introl eq_refl) (eq_sym E)).
    + apply IH; [exact Hnd'|]. intros tm' Hin. apply Hfresh. now right.
Qed.

Lemma sound_init tt0 player : sound (init tt0 player).
Proof.
  split; [apply wf_init|]. split; [constructor | simpl; lia].
Qed.

Lemma sound_showMessage msg d p x : sound x -> sound (showMessage msg d p x).
Proof.
  intros (Hwf & Hnd & Hp).
  destruct (Z.lt_ge_cases p (priority x)) as [Hlt|Hge].
  - rewrite showMessage_rejected by assumption. exact (conj Hwf (conj Hnd Hp)).
  - split; [now apply wf_showMessage|].
    rewrite showMessage_accepted by assumption.
    unfold timers_distinct. simpl. split; [|lia].
    apply NoDup_map_snoc.
    + unfold pending_others. now apply NoDup_map_filter.
    + intros tm Hin. apply in_pending_others in Hin. destruct Hin as [Hin _].
      destruct Hwf as (_ & Hid & _). specialize (Hid tm Hin). simpl. lia.
Qed.

Lemma sound_idle_stop x : sound x -> sound (idle_stop x).
Proof. intros H. unfold idle_stop. destruct (idlePlayer x); exact H. Qed.

Lemma sound_idle_start x : sound x -> sound (idle_start x).
Proof. intros H. unfold idle_start. destruct (idlePlayer x); exact H. Qed.

Lemma sound_clearTimeout id x : sound x -> sound (clearTimeout id x).
Proof.
  intros (Hwf & Hnd & Hp). split; [now apply wf_clearTimeout|].
  split; [|exact Hp]. unfold timers_distinct, clearTimeout. simpl.
  now apply NoDup_map_filter.
Qed.

Lemma sound_hide x : sound x -> sound (hide x).
Proof.
  intros (Hwf & Hnd & Hp). split; [exact Hwf|]. split; [exact Hnd | simpl; lia].
Qed.

Lemma sound_clear x : sound x -> sound (clear x).
Proof.
  intros H. unfold clear.
  assert (H1 : sound (set_animationName hidden_animation x)) by exact H.
  apply sound_idle_stop in H1.
  apply (sound_clearTimeout
           (closeTimer (idle_stop (set_animationName hidden_animation x)))) in H1.
  destruct H1 as (Hwf & Hnd & _). split; [exact Hwf|]. split; [exact Hnd | simpl; lia].
Qed.

Lemma sound_setTimeout a d x : a = ResumeIdle -> sound x -> sound (snd (setTimeout a d x)).
Proof.
  intros -> (Hwf & Hnd & Hp). split; [now apply wf_setTimeout_resume|].
  split; [|exact Hp]. unfold timers_distinct, setTimeout. simpl.
  apply NoDup_map_snoc; [exact Hnd|].
  intros tm Hin. destruct Hwf as (_ & Hid & _). specialize (Hid tm Hin). simpl. lia.
Qed.

Lemma sound_notification msg d p x : sound x -> sound (notification msg d p x).
Proof.
  intros H. unfold notification.
  apply sound_setTimeout; [reflexivity|].
  now apply sound_showMessage, sound_idle_stop.
Qed.

Lemma sound_fire id x : sound x -> sound (fire id x).
Proof.
  intros H. unfold fire.
  destruct (find _ (timers x)) as [tm|]; [|exact H].
  destruct (timer_action tm); simpl.
  - now apply sound_hide, sound_clearTimeout.
  - now apply sound_idle_start, sound_clearTimeout.
Qed.

Lemma sound_tick o e x : sound x -> sound (tick o e x).
Proof.
  intros H. unfold tick, idle_callback.
  destruct (idlePlayer x) as [b|]; try exact H.
  destruct (truthy_string _); [now apply sound_showMessage | now apply sound_idle_stop].
Qed.

Lemma sound_step o ev x : sound x -> sound (step o ev x).
Proof.
  intros H. destruct ev; simpl.
  - now apply sound_tick.
  - now apply sound_idle_start.
  - now apply sound_idle_stop.
  - now apply sound_showMessage.
  - now apply sound_notification.
  - now apply sound_clear.
  - now apply sound_fire.
Qed.

Lemma sound_run o evs : forall x, sound x -> sound (run o evs x).
Proof.
  unfold run. induction evs as [|ev evs IH]; intros x H; simpl; [exact H|].
  apply IH, sound_step, H.
Qed.

Lemma same_key_short {A} (f : A -> Z) (c : Z) (l : list A) :
  NoDup (map f l) -> (forall a, In a l -> f a = c) -> (List.length l <= 1)%nat.
Proof.
  destruct l as [|a [|b l]]; simpl; intros Hnd Hc; try lia.
  exfalso. inversion Hnd as [|? ? Hnin _]; subst. apply Hnin. left.
  rewrite (Hc a), (Hc b); auto.
Qed.

(** X3. Along every execution from a fresh surface, whatever the order of
    ticks, messages, notifications, clears and timeout firings, at most
    one auto-hide timeout is pending. *)
Theorem at_most_one_auto_hide o evs tt0 player :
  (List.length (pending_hides (run o evs (init tt0 player))) <= 1)%nat.
Proof.
  destruct (sound_run o evs _ (sound_init tt0 player)) as ((_ & _ & Hh) & Hnd & _).
  apply (same_key_short timer_id (closeTimer (run o evs (init tt0 player)))).
  - unfold pending_hides. now apply NoDup_map_filter.
  - intros tm Hin. unfold pending_hides in Hin. apply filter_In in Hin.
    destruct Hin as [Hin Hhide]. now apply Hh.
Qed.

(** X4. Along every execution from a fresh surface the current priority is
    never negative, so a message of negative priority is never shown: the
    call leaves the surface as it is. *)
Theorem negative_priority_never_shown o evs tt0 player msg d p :
  p < 0 ->
  0 <= priority (run o evs (init tt0 player)) /\
  showMessage msg d p (run o evs (init tt0 player)) = run o evs (init tt0 player).
Proof.
  intros Hp.
  destruct (sound_run o evs _ (sound_init tt0 player)) as (_ & _ & H0).
  split; [exact H0|]. apply showMessage_rejected. lia.
Qed.

(** *** Notifications, the copy tip and the idle tick *)

Lemma wf_ids_below x tm : wf x -> In tm (timers x) -> timer_id tm < nextTimer x.
Proof. intros (_ & Hid & _) Hin. specialize (Hid tm Hin). lia. Qed.

(** Scheduling the resume of the idle player. *)
Lemma setTimeout_resume_spec dd z :
  wf z ->
  let x' := snd (setTimeout ResumeIdle dd z) in
  pending_others x' = pending_others z ++ [mkTimer (nextTimer z) dd ResumeIdle] /\
  pending_hides x' = pending_hides z /\
  idlePlayer (fire (nextTimer z) x') = started (idlePlayer z) /\
  idlePlayer x' = idlePlayer z /\ content x' = content z /\ priority x' = priority z.
Proof.
  intros Hwf. cbv zeta. unfold setTimeout. simpl.
  split; [unfold pending_others; simpl; now rewrite filter_app|].
  split; [unfold pending_hides; simpl; rewrite filter_app; simpl; apply app_nil_r|].
  split; [|repeat split].
  unfold fire. simpl. rewrite find_last.
  - simpl. apply (idlePlayer_idle_start_eq
                    (clearTimeout (nextTimer z)
                       (set_nextTimer (nextTimer z + 1)
                          (set_timers (timers z ++ [mkTimer (nextTimer z) dd ResumeIdle]) z)))).
  - intros tm Hin. pose proof (wf_ids_below z tm Hwf Hin). lia.
Qed.

(** An accepted notification. *)
Lemma notification_accepted msg d p x :
  wf x -> priority x <= p ->
  content (notification msg d p x) = msg /\
  priority (notification msg d p x) = p /\
  idlePlayer (notification msg d p x) = stopped (idlePlayer x).
Proof.
  intros Hwf Hp.
  destruct (idle_stop_fields x) as (_ & _ & Yp & _).
  pose proof (wf_idle_stop x Hwf) as Hwfy.
  unfold notification, setTimeout.
  rewrite (showMessage_accepted msg d p (idle_stop x) Hwfy) by lia.
  simpl. repeat split. apply idlePlayer_idle_stop_eq.
Qed.

(** X5. [notification] stops the idle player and schedules its restart
    [duration + transitionTime] later, whether or not the message is
    accepted: a message below the current priority leaves content, priority
    and the pending auto-hide as they were, and still pauses the idle
    player; when the restart timeout fires the idle player runs again. *)
Theorem notification_spec msg d p x :
  wf x ->
  let x' := notification msg d p x in
  idlePlayer x' = stopped (idlePlayer x) /\
  (exists id,
     ~ In id (map timer_id (timers x)) /\
     pending_others x'
     = pending_others x ++ [mkTimer id (d + transitionTime x) ResumeIdle] /\
     idlePlayer (fire id x') = started (idlePlayer x)) /\
  (p < priority x ->
   content x' = content x /\ priority x' = priority x /\
   pending_hides x' = pending_hides x) /\
  (priority x <= p -> content x' = msg /\ priority x' = p).
Proof.
  intros Hwf. cbv zeta.
  destruct (idle_stop_fields x) as (Yc & _ & Yp & _ & Ytt & Yt & Yn).
  pose proof (wf_idle_stop x Hwf) as Hwfy.
  pose proof (idlePlayer_idle_stop_eq x) as Yi.
  set (y := idle_stop x) in *.
  assert (Hfresh : forall n, nextTimer x <= n -> ~ In n (map timer_id (timers x))).
  { intros n Hn Hin. apply in_map_iff in Hin. destruct Hin as (tm & <- & Hin).
    pose proof (wf_ids_below x tm Hwf Hin). lia. }
  assert (Hst : started (stopped (idlePlayer x)) = started (idlePlayer x))
    by now destruct (idlePlayer x).
  assert (Hpo : pending_others y = pending_others x)
    by (unfold pending_others; now rewrite Yt).
  assert (Hph : pending_hides y = pending_hides x)
    by (unfold pending_hides; now rewrite Yt).
  change (notification msg d p x)
    with (snd (setTimeout ResumeIdle (d + transitionTime (showMessage msg d p y))
                 (showMessage msg d p y))).
  destruct (Z.lt_ge_cases p (priority x)) as [Hlt|Hge].
  - rewrite showMessage_rejected by lia.
    destruct (setTimeout_resume_spec (d + transitionTime y) y Hwfy)
      as (H1 & H2 & H3 & H4 & H5 & H6).
    split; [congruence|]. split.
    + exists (nextTimer y). split; [apply Hfresh; lia|].
      split; [now rewrite H1, Hpo, Ytt | now rewrite H3, Yi].
    + split; [intros _; repeat split; congruence | intros; lia].
  - pose proof (wf_showMessage msg d p y Hwfy) as Hwfz.
    rewrite (showMessage_accepted msg d p y Hwfy) in Hwfz |- * by lia.
    set (z := mk msg display_animation p (nextTimer y) (transitionTime y) (idlePlayer y)
                 (pending_others y ++ [mkTimer (nextTimer y) d HideTips])
                 (nextTimer y + 1)) in *.
    destruct (setTimeout_resume_spec (d + transitionTime z) z Hwfz)
      as (H1 & H2 & H3 & H4 & H5 & H6).
    assert (Hpz : pending_others z = pending_others x).
    { unfold z, pending_others at 1. simpl. unfold pending_others.
      rewrite pending_others_app_hide by reflexivity. now rewrite Yt. }
    split; [rewrite H4; exact Yi|]. split.
    + exists (nextTimer z). split; [apply Hfresh; unfold z; simpl; lia|].
      split; [rewrite H1, Hpz; unfold z; simpl; now rewrite Ytt|].
      rewrite H3. unfold z. simpl. now rewrite Yi.
    + split; [intros; lia | intros _; split; [exact H5 | exact H6]].
Qed.

Lemma getRandomArrayItem_member (l : list string) pick :
  l <> [] -> exists s, getRandomArrayItem l pick = Some s /\ In s l.
Proof.
  intros Hne. unfold getRandomArrayItem. destruct l as [|a l]; [congruence|].
  destruct (nth_error (a :: l) (Nat.modulo pick (List.length (a :: l)))) as [s|] eqn:E.
  - exists s. split; [reflexivity|]. eapply nth_error_In, E.
  - exfalso. apply nth_error_None in E.
    pose proof (Nat.mod_upper_bound pick (List.length (a :: l))) as Hb.
    simpl in *. lia.
Qed.

(** X6. The copy tip: with no copy messages configured [copy] does
    nothing at all; with some, and a displayed priority not above the copy
    priority, what is shown is one of the configured messages. *)
Theorem copy_spec o pick x :
  (copy_message o = [] -> copy o pick x = x) /\
  (copy_message o <> [] -> wf x -> priority x <= copy_priority o ->
   In (content (copy o pick x)) (copy_message o) /\
   priority (copy o pick x) = copy_priority o /\
   idlePlayer (copy o pick x) = stopped (idlePlayer x)).
Proof.
  split.
  - intros E. unfold copy. now rewrite E.
  - intros Hne Hwf Hp.
    destruct (getRandomArrayItem_member (copy_message o) pick Hne) as (s & Hs & Hin).
    assert (E : copy o pick x = notification s (copy_duration o) (copy_priority o) x).
    { unfold copy. destruct (copy_message o); [congruence|]. now rewrite Hs. }
    rewrite E.
    destruct (notification_accepted s (copy_duration o) (copy_priority o) x Hwf Hp)
      as (Hc & Hpr & Hi).
    split; [now rewrite Hc|]. split; [exact Hpr | exact Hi].
Qed.

Lemma idlePlayer_clear x : idlePlayer (clear x) = stopped (idlePlayer x).
Proof.
  unfold clear. simpl. unfold clearTimeout. simpl.
  apply (idlePlayer_idle_stop_eq (set_animationName hidden_animation x)).
Qed.

Lemma idle_start_clear x :
  idlePlayer (idle_start (clear x)) = started (idlePlayer x) /\
  priority (idle_start (clear x)) = 0.
Proof.
  split.
  - rewrite idlePlayer_idle_start_eq, idlePlayer_clear. now destruct (idlePlayer x).
  - unfold idle_start. now destruct (idlePlayer (clear x)).
Qed.

End TipsFacts.

(** ** The orchestrator *)

Section Oml2dFacts.

Import Oml2d.

(** Unfold the monad and the methods; with the state taken apart into
    its fields every intermediate state stays a flat record. *)
Ltac run_m :=
  cbv [loadModel reloadModel loadRandomModel loadNextModel loadModelByIndex
       loadModelByName loadNextModelClothes run_callback run_retry
       pre_increment_modelIndex pre_increment_modelClothesIndex
       showModelHitAreaFrames hideModelHitAreaFrames
       tips_clear_ idlePlayer_start_ statusBar_loadingError_ on_pixiApp
       mobileHidden set_modelIndex set_modelClothesIndex modelIndex
       modelClothesIndex call on_tips modify gets ret bind throw
       options currentModelIndex currentModelClothesIndex stage_modelIndex
       models_modelIndex models_modelClothesIndex store_modelIndex
       store_modelClothesIndex pixiApp retry tips log].

Ltac case_if :=
  match goal with
  | |- context [if ?c then _ else _] => destruct c eqn:?
  end.

Ltac exec s := destruct s; run_m; repeat case_if.

Ltac done_with tac := eexists; split; [reflexivity | tac].

Ltac exists_state := eexists; eexists; split; [reflexivity|]; cbn [log tips retry].

Lemma same_selection_refl s : same_selection s s.
Proof. repeat split. Qed.

Lemma same_selection_trans s1 s2 s3 :
  same_selection s1 s2 -> same_selection s2 s3 -> same_selection s1 s3.
Proof. unfold same_selection. intuition congruence. Qed.

(** The transition workflow returns normally and never touches the
    selection. *)
Lemma loadModel_frame e cb s :
  exists s', loadModel e cb s = Ok tt s' /\ same_selection s s'.
Proof.
  destruct cb; exec s; done_with ltac:(repeat split).
Qed.

Lemma reloadModel_frame e s :
  exists s', reloadModel e s = Ok tt s' /\ same_selection s s'.
Proof.
  exec s; done_with ltac:(repeat split).
Qed.

(** The calls of one run of the workflow, case by case. *)
Lemma loadModel_log e cb s :
  exists s', loadModel e cb s = Ok tt s' /\
  log s' = log s ++
    if length_models (options s) =? 0 then [tips_clear; stage_slideOut]
    else if negb (mobileDisplay (options s)) &&
            match windowSizeType e with mobile => true | _ => false end
    then [tips_clear; stage_slideOut; statusBar_rest]
    else [tips_clear; stage_slideOut; statusBar_showLoading; models_create] ++
         (if loadResolves e then []
          else [statusBar_loadingError RetryReloadModel]) ++
         mount_calls (pixiApp s) ++
         match cb with
         | CbSlideIn => [stage_slideIn]
         | CbInitial =>
             if initialStatusSleep (options s)
             then [tips_clear; statusBar_open (restMessage (options s));
                   statusBar_setClickEvent]
             else [stage_slideIn]
         end.
Proof.
  unfold mount_calls.
  destruct cb; exec s;
    done_with ltac:(simpl; rewrite <- ?app_assoc; reflexivity).
Qed.

(** C10. [showModelHitAreaFrames()] calls [models.removeHitAreaFrames()]
    and [hideModelHitAreaFrames()] calls [models.addHitAreaFrames()];
    each does that one call and nothing else. *)
Theorem hitAreaFrames_calls s :
  (exists s', showModelHitAreaFrames s = Ok tt s' /\
              log s' = log s ++ [models_removeHitAreaFrames] /\
              same_selection s s' /\ tips s' = tips s) /\
  (exists s', hideModelHitAreaFrames s = Ok tt s' /\
              log s' = log s ++ [models_addHitAreaFrames] /\
              same_selection s s' /\ tips s' = tips s).
Proof.
  split; (eexists; split; [reflexivity | repeat split]).
Qed.

Lemma loadModelByIndex_ignored e i clothes s :
  i < 0 \/ length_models (options s) <= i ->
  loadModelByIndex e i clothes s = Ok tt s.
Proof.
  intros H.
  assert (Hc : (i >=? 0) && (i <? length_models (options s)) = false).
  { destruct (Z.geb_spec i 0), (Z.ltb_spec i (length_models (options s)));
      simpl; try reflexivity; lia. }
  unfold loadModelByIndex, bind at 1, gets. rewrite Hc. reflexivity.
Qed.

(** C5. An index below 0 or not below the catalog length makes
    [loadModelByIndex] return normally with the whole state as it was:
    the selection and its mirrors are unchanged, and the call log has
    grown by nothing, so no workflow ran. *)
Theorem loadModelByIndex_out_of_range e i clothes s :
  i < 0 \/ i >= length_models (options s) ->
  loadModelByIndex e i clothes s = Ok tt s.
Proof.
  intros H.
  assert (Hc : (i >=? 0) && (i <? length_models (options s)) = false).
  { destruct (Z.geb_spec i 0), (Z.ltb_spec i (length_models (options s)));
      simpl; try reflexivity; lia. }
  unfold loadModelByIndex, bind at 1, gets. rewrite Hc. reflexivity.
Qed.

(** The sequence shared by the random, by-index and by-name switches. *)
Lemma select_and_load e i c msg s :
  exists s',
    (set_modelIndex i ;; set_modelClothesIndex c ;; call (statusBar_open msg) ;;
     loadModel e CbSlideIn ;; idlePlayer_start_) s = Ok tt s' /\
    options s' = options s /\
    (currentModelIndex s' = i /\ stage_modelIndex s' = i /\
     models_modelIndex s' = i /\ store_modelIndex s' = i) /\
    (currentModelClothesIndex s' = c /\ models_modelClothesIndex s' = c /\
     store_modelClothesIndex s' = c) /\
    exists rest,
      log s' = log s ++ [store_updateModelCurrentIndex i;
                         store_updateModelCurrentClothesIndex c;
                         statusBar_open msg; tips_clear; stage_slideOut] ++ rest.
Proof.
  exec s; done_with ltac:(simpl;
    (split; [reflexivity|]); (split; [repeat split|]); (split; [repeat split|]);
    eexists; rewrite <- ?app_assoc; reflexivity).
Qed.

Lemma in_bounds_test i n : 0 <= i < n -> (i >=? 0) && (i <? n) = true.
Proof.
  intros H. destruct (Z.geb_spec i 0), (Z.ltb_spec i n); simpl; try reflexivity; lia.
Qed.

(** C6. For an index inside the catalog, [loadModelByIndex] returns
    normally, the model index, in the orchestrator, in its mirrors and in
    the store, is that index, and the clothes index is the given one, 0
    when none is given. *)
Theorem loadModelByIndex_in_bounds e i clothes s :
  0 <= i < length_models (options s) ->
  exists s', loadModelByIndex e i clothes s = Ok tt s' /\
    store_modelIndex s' = i /\
    currentModelIndex s' = i /\
    stage_modelIndex s' = i /\
    models_modelIndex s' = i /\
    In (store_updateModelCurrentIndex i) (log s') /\
    store_modelClothesIndex s' = or_zero clothes /\
    currentModelClothesIndex s' = or_zero clothes /\
    models_modelClothesIndex s' = or_zero clothes /\
    (clothes = None ->
     store_modelClothesIndex s' = 0 /\ currentModelClothesIndex s' = 0 /\
     In (store_updateModelCurrentClothesIndex 0) (log s')).
Proof.
  intros H. apply in_bounds_test in H.
  destruct (select_and_load e i (or_zero clothes) (switchingMessage (options s)) s)
    as (s' & Hrun & _ & (H1 & H2 & H3 & H4) & (H5 & H6 & H7) & rest & Hlog).
  exists s'. split.
  - unfold loadModelByIndex, bind at 1, gets. rewrite H. exact Hrun.
  - assert (Hin : forall c, In c [store_updateModelCurrentIndex i;
                       store_updateModelCurrentClothesIndex (or_zero clothes)] ->
                     In c (log s')).
    { intros c Hc. rewrite Hlog, in_app_iff. right. simpl in *. tauto. }
    repeat (split; [first [assumption | apply Hin; simpl; tauto]|]).
    intros ->. simpl in *. repeat split; try assumption. apply Hin. simpl. tauto.
Qed.

(** What [loadNextModel] leaves behind, for any current index. *)
Lemma loadNextModel_index e s :
  exists s', loadNextModel e s = Ok tt s' /\
    options s' = options s /\
    currentModelIndex s' =
      (if currentModelIndex s + 1 >=? length_models (options s)
       then 0 else currentModelIndex s + 1) /\
    stage_modelIndex s' = currentModelIndex s' /\
    models_modelIndex s' = currentModelIndex s' /\
    store_modelIndex s' = currentModelIndex s' /\
    currentModelClothesIndex s' = 0 /\
    models_modelClothesIndex s' = 0 /\
    store_modelClothesIndex s' = 0.
Proof.
  exec s; done_with ltac:(repeat split).
Qed.

(** C7. From an index of a non-empty catalog, [loadNextModel] leaves the
    model index, and its persisted copy, at (current + 1) mod length; from
    the last index that is 0; and on a catalog of two, starting at 0, a
    second call brings the index back to 0. *)
Theorem loadNextModel_cycles e s :
  0 <= currentModelIndex s < length_models (options s) ->
  exists s', loadNextModel e s = Ok tt s' /\
    currentModelIndex s' = (currentModelIndex s + 1) mod length_models (options s) /\
    store_modelIndex s' = (currentModelIndex s + 1) mod length_models (options s) /\
    (currentModelIndex s = length_models (options s) - 1 ->
     currentModelIndex s' = 0 /\ store_modelIndex s' = 0) /\
    (length_models (options s) = 2 -> currentModelIndex s = 0 ->
     currentModelIndex s' = 1 /\
     forall e2, exists s'', loadNextModel e2 s' = Ok tt s'' /\
                  currentModelIndex s'' = 0 /\ store_modelIndex s'' = 0).
Proof.
  intros H.
  destruct (loadNextModel_index e s)
    as (s' & Hrun & Ho & Hi & _ & _ & Hst & _).
  exists s'. split; [exact Hrun|].
  assert (Hmod : currentModelIndex s' =
                 (currentModelIndex s + 1) mod length_models (options s)).
  { rewrite Hi.
    destruct (Z.geb_spec (currentModelIndex s + 1) (length_models (options s))).
    - replace (currentModelIndex s + 1) with (length_models (options s)) by lia.
      rewrite Z.mod_same by lia. reflexivity.
    - rewrite Z.mod_small by lia. reflexivity. }
  split; [exact Hmod|]. split; [congruence|]. split.
  - intros Hlast. rewrite Hst, Hmod.
    replace (currentModelIndex s + 1) with (length_models (options s)) by lia.
    rewrite Z.mod_same by lia. split; reflexivity.
  - intros H2 H0. rewrite Hmod, H2, H0. split; [reflexivity|].
    intros e2.
    destruct (loadNextModel_index e2 s')
      as (s'' & Hrun2 & _ & Hi2 & _ & _ & Hst2 & _).
    exists s''. split; [exact Hrun2|].
    rewrite Hst2, Hi2, Ho, Hmod, H2, H0. split; reflexivity.
Qed.

(** C9 (amended). On a non-empty catalog, a run of the workflow with
    mobile display disabled and a viewport classified as mobile returns
    after exactly three calls, clearing the tips, the exit transition and
    the resting status: no load is attempted and no enter transition
    fires.  The classification is read anew on each run: a later run on a
    viewport that is not mobile does issue the load. *)
Theorem loadModel_mobile_hidden e cb s :
  models (options s) <> [] ->
  mobileDisplay (options s) = false ->
  windowSizeType e = mobile ->
  exists s', loadModel e cb s = Ok tt s' /\
    log s' = log s ++ [tips_clear; stage_slideOut; statusBar_rest] /\
    same_selection s s' /\
    forall e2 cb2, windowSizeType e2 <> mobile ->
      exists s'', loadModel e2 cb2 s' = Ok tt s'' /\
        exists rest,
          log s'' = log s' ++ [tips_clear; stage_slideOut; statusBar_showLoading;
                               models_create] ++ rest.
Proof.
  intros Hne Hmd Hw.
  assert (Hlen : (length_models (options s) =? 0) = false).
  { unfold length_models. destruct (models (options s)); [congruence|].
    simpl. reflexivity. }
  destruct (loadModel_frame e cb s) as (s' & Hrun & Hsame).
  destruct (loadModel_log e cb s) as (s1 & Hrun1 & Hlog).
  rewrite Hrun in Hrun1. injection Hrun1 as <-.
  rewrite Hlen, Hmd, Hw in Hlog. simpl in Hlog.
  exists s'. split; [exact Hrun|]. split; [exact Hlog|]. split; [exact Hsame|].
  intros e2 cb2 Hw2.
  destruct (loadModel_log e2 cb2 s') as (s'' & Hrun2 & Hlog2).
  exists s''. split; [exact Hrun2|].
  destruct Hsame as (Ho & _). rewrite Ho, Hlen in Hlog2.
  replace (negb (mobileDisplay (options s)) &&
           match windowSizeType e2 with mobile => true | _ => false end)
    with false in Hlog2
    by (destruct (windowSizeType e2); [congruence | | | ];
        now rewrite andb_false_r).
  eexists. rewrite Hlog2. reflexivity.
Qed.

(** C2 (what the code does). When [models.create()] rejects, the error
    status with its retry action is shown, and the continuation written
    after it runs all the same: the renderer mounts, the stage is
    restyled, the loading indicator is hidden and the callback fires. *)
Theorem loadModel_rejected_load_runs_on :
  let s := mounted (options_of catalog_A true) 0 0 in
  exists s', loadModel env_pc_fail CbSlideIn s = Ok tt s' /\
    log s' = [tips_clear; stage_slideOut; statusBar_showLoading; models_create;
              statusBar_loadingError RetryReloadModel;
              pixiApp_mount; menus_reload; tips_reload; models_settingModel;
              stage_reloadStyle; pixiApp_resize; statusBar_hideLoading;
              stage_slideIn] /\
    retry s' = Some RetryReloadModel /\
    run_retry env_pc_ok s' = reloadModel env_pc_ok s'.
Proof.
  eexists. split; [vm_compute; reflexivity|].
  split; [reflexivity|]. split; reflexivity.
Qed.

(** C1 (what the code does). A name carried by the first catalog entry is
    dropped: [loadModelByName("A")] on the catalog of scenario A returns
    with the state and the call log as they were, and on a catalog of two
    with the second model active the selection stays on the second. *)
Theorem loadModelByName_first_entry_ignored :
  (let s := mounted (options_of catalog_A true) 0 0 in
   loadModelByName env_pc_ok "A" None s = Ok tt s /\ log s = []) /\
  (let s := mounted (options_of catalog_AB true) 1 0 in
   loadModelByName env_pc_ok "A" None s = Ok tt s /\
   store_modelIndex s = 1 /\
   exists s', loadModelByName env_pc_ok "B" None s = Ok tt s' /\
              store_modelIndex s' = 1 /\
              In stage_slideIn (log s')).
Proof.
  split; simpl.
  - split; reflexivity.
  - split; [reflexivity|]. split; [reflexivity|].
    eexists. split; [vm_compute; reflexivity|].
    split; [reflexivity|]. simpl. tauto.
Qed.

(** *** The selection invariant *)

Lemma index_Some {A} (l : list A) i :
  0 <= i < Z.of_nat (List.length l) -> exists m, index l i = Some m /\ In m l.
Proof.
  intros H. unfold index. rewrite (proj2 (Z.leb_le 0 i)) by lia.
  rewrite (proj2 (Z.ltb_lt i _)) by lia. simpl.
  destruct (nth_error l (Z.to_nat i)) as [m|] eqn:E.
  - exists m. split; [reflexivity|]. eapply nth_error_In, E.
  - apply nth_error_None in E. lia.
Qed.

Lemma index_inv {A} (l : list A) i m :
  index l i = Some m -> 0 <= i < Z.of_nat (List.length l) /\ In m l.
Proof.
  unfold index. destruct (Z.leb_spec 0 i), (Z.ltb_spec i (Z.of_nat (List.length l)));
    simpl; try discriminate.
  intros E. split; [lia|]. eapply nth_error_In, E.
Qed.

Lemma findIndex_from_bound {A} (p : A -> bool) (l : list A) :
  forall i, findIndex_from p l i = -1 \/
            i <= findIndex_from p l i < i + Z.of_nat (List.length l).
Proof.
  induction l as [|x l IH]; intros i; simpl; [now left|].
  destruct (p x); [right; lia|].
  destruct (IH (i + 1)) as [H|H]; [now left | right; lia].
Qed.

Lemma in_range_first_variant o i :
  catalog_ok o -> 0 <= i < length_models o -> in_range o i 0.
Proof.
  intros Hc Hi. split; [exact Hi|].
  destruct (index_Some (models o) i Hi) as (m & Hm & Hin).
  exists m. split; [exact Hm|]. specialize (Hc m Hin). lia.
Qed.

Lemma in_range_given o i c :
  (forall m, index (models o) i = Some m -> 0 <= c < variants m) ->
  0 <= i < length_models o -> in_range o i c.
Proof.
  intros Hc Hi. split; [exact Hi|].
  destruct (index_Some (models o) i Hi) as (m & Hm & Hin).
  exists m. split; [exact Hm | exact (Hc m Hm)].
Qed.

(** [loadNextModelClothes] on an existing catalog entry. *)
Lemma loadNextModelClothes_index e s m :
  index (models (options s)) (currentModelIndex s) = Some m ->
  exists s', loadNextModelClothes e s = Ok tt s' /\
    options s' = options s /\
    currentModelIndex s' = currentModelIndex s /\
    stage_modelIndex s' = stage_modelIndex s /\
    models_modelIndex s' = models_modelIndex s /\
    store_modelIndex s' = store_modelIndex s /\
    match path m with
    | PathOne _ => s' = s
    | PathMany ps =>
        currentModelClothesIndex s' =
          (if currentModelClothesIndex s + 1 >=? Z.of_nat (List.length ps)
           then 0 else currentModelClothesIndex s + 1) /\
        models_modelClothesIndex s' = currentModelClothesIndex s' /\
        store_modelClothesIndex s' = currentModelClothesIndex s'
    end.
Proof.
  destruct s; run_m. intros ->.
  destruct (path m) as [p|ps]; [done_with ltac:(repeat split)|].
  repeat case_if; done_with ltac:(repeat split).
Qed.

Lemma loadRandomModel_unfold e r s :
  loadRandomModel e r s =
  (set_modelIndex r ;; set_modelClothesIndex 0 ;;
   call (statusBar_open (switchingMessage (options s))) ;;
   loadModel e CbSlideIn ;; idlePlayer_start_) s.
Proof. destruct s. run_m. reflexivity. Qed.

(** One switch operation keeps the selection inside the catalog and the
    mirrors in step. *)
Lemma run_op_inv op s :
  catalog_ok (options s) -> selection_ok s -> synced s -> op_ok (options s) op ->
  exists s', run_op op s = Ok tt s' /\
    options s' = options s /\ selection_ok s' /\ synced s'.
Proof.
  intros Hcat Hsel Hsyn Hop. destruct op as [e r|e|e i c|e n c|e|e]; simpl in *.
  - (* random *)
    destruct (select_and_load e r 0 (switchingMessage (options s)) s)
      as (s' & Hrun & Ho & (H1 & H2 & H3 & H4) & (H5 & H6 & H7) & _).
    exists s'. split; [rewrite loadRandomModel_unfold; exact Hrun|].
    split; [exact Ho|]. split.
    + unfold selection_ok. rewrite Ho, H1, H5. now apply in_range_first_variant.
    + unfold synced. repeat split; congruence.
  - (* next *)
    destruct (loadNextModel_index e s)
      as (s' & Hrun & Ho & Hi & H2 & H3 & H4 & H5 & H6 & H7).
    exists s'. split; [exact Hrun|]. split; [exact Ho|]. split.
    + unfold selection_ok. rewrite Ho, H5. apply in_range_first_variant; [exact Hcat|].
      rewrite Hi. destruct Hsel as [Hr _].
      destruct (Z.geb_spec (currentModelIndex s + 1) (length_models (options s))); lia.
    + unfold synced. repeat split; congruence.
  - (* by index *)
    destruct (Z.lt_ge_cases i 0) as [Hlo|Hlo];
      [|destruct (Z.lt_ge_cases i (length_models (options s))) as [Hhi|Hhi]].
    + exists s. split; [apply loadModelByIndex_ignored; lia | auto].
    + destruct (select_and_load e i (or_zero c) (switchingMessage (options s)) s)
        as (s' & Hrun & Ho & (H1 & H2 & H3 & H4) & (H5 & H6 & H7) & _).
      exists s'. split.
      * unfold loadModelByIndex, bind at 1, gets.
        rewrite in_bounds_test by lia. exact Hrun.
      * split; [exact Ho|]. split.
        -- unfold selection_ok. rewrite Ho, H1, H5.
           apply in_range_given; [exact Hop | lia].
        -- unfold synced. repeat split; congruence.
    + exists s. split; [apply loadModelByIndex_ignored; lia | auto].
  - (* by name *)
    unfold loadModelByName, bind at 1, gets.
    set (k := findIndex (fun item => (name item =? n)%string) (models (options s))) in *.
    destruct (Z.gtb_spec k 0) as [Hk|Hk]; [|exists s; auto].
    destruct (select_and_load e k (or_zero c) (switchingMessage (options s)) s)
      as (s' & Hrun & Ho & (H1 & H2 & H3 & H4) & (H5 & H6 & H7) & _).
    exists s'. split; [exact Hrun|]. split; [exact Ho|]. split.
    + unfold selection_ok. rewrite Ho, H1, H5.
      apply in_range_given; [exact Hop|].
      destruct (findIndex_from_bound
                  (fun item => (name item =? n)%string) (models (options s)) 0)
        as [Hb|Hb]; fold k in Hb; unfold findIndex in k; fold k in Hb;
        unfold length_models; lia.
    + unfold synced. repeat split; congruence.
  - (* next clothes *)
    destruct Hsel as (Hr & m & Hm & Hc).
    destruct (loadNextModelClothes_index e s m Hm)
      as (s' & Hrun & Ho & H1 & H2 & H3 & H4 & Hp).
    exists s'. split; [exact Hrun|]. split; [exact Ho|].
    unfold variants in Hc. destruct (path m) as [p|ps] eqn:Ep.
    + subst s'. split; [|exact Hsyn]. split; [exact Hr|].
      exists m. unfold variants. rewrite Ep. auto.
    + destruct Hp as (H5 & H6 & H7). split.
      * unfold selection_ok. rewrite Ho, H1. split; [exact Hr|].
        exists m. split; [exact Hm|]. unfold variants. rewrite Ep, H5.
        destruct (Z.geb_spec (currentModelClothesIndex s + 1)
                             (Z.of_nat (List.length ps))); lia.
      * destruct Hsyn as (S1 & S2 & S3 & S4 & S5).
        unfold synced. repeat split; congruence.
  - (* reload *)
    destruct (reloadModel_frame e s) as (s' & Hrun & Hs).
    exists s'. split; [exact Hrun|].
    destruct Hs as (Ho & H1 & H2 & H3 & H4 & H5 & H6 & H7 & _).
    split; [exact Ho|]. split.
    + unfold selection_ok. now rewrite Ho, H1, H2.
    + destruct Hsyn as (S1 & S2 & S3 & S4 & S5).
      unfold synced. repeat split; congruence.
Qed.

(** C8 (amended). On a catalog whose entries all have an asset path,
    from a selection inside the catalog that the mirrors agree with, any
    sequence of switch operations, whose explicitly given clothes indices
    exist for their model, returns normally and leaves a selection inside
    the catalog, equal to its mirrors in the stage, the model manager and
    the store. *)
Theorem selection_invariant ops : forall s,
  catalog_ok (options s) -> selection_ok s -> synced s ->
  Forall (op_ok (options s)) ops ->
  exists s', run_ops ops s = Ok tt s' /\
    options s' = options s /\ selection_ok s' /\ synced s'.
Proof.
  induction ops as [|op ops IH]; intros s Hcat Hsel Hsyn Hops.
  - exists s. auto.
  - inversion Hops as [|? ? Hop Hrest]; subst.
    destruct (run_op_inv op s Hcat Hsel Hsyn Hop) as (s1 & Hrun & Ho & Hsel1 & Hsyn1).
    destruct (IH s1) as (s' & Hrun' & Ho' & Hsel' & Hsyn'); try assumption;
      try (rewrite Ho; assumption).
    exists s'. split.
    + change (run_ops (op :: ops) s)
        with (bind (run_op op) (fun _ => run_ops ops) s).
      unfold bind. rewrite Hrun. exact Hrun'.
    + split; [congruence | auto].
Qed.

(** *** Further properties of the orchestrator *)

(** X9. [loadNextModelClothes] throws a TypeError, before any call and
    with nothing changed, when the current model index names no catalog
    entry; in particular on an empty catalog. *)
Theorem loadNextModelClothes_throws e s :
  currentModelIndex s < 0 \/ length_models (options s) <= currentModelIndex s ->
  loadNextModelClothes e s = Throw TypeError s /\
  (models (options s) = [] -> loadNextModelClothes e s = Throw TypeError s).
Proof.
  assert (H : index (models (options s)) (currentModelIndex s) = None ->
              loadNextModelClothes e s = Throw TypeError s).
  { destruct s; run_m. now intros ->. }
  intros Hr. split.
  - apply H. unfold index, length_models in *.
    destruct (Z.leb_spec 0 (currentModelIndex s)),
             (Z.ltb_spec (currentModelIndex s)
                         (Z.of_nat (List.length (models (options s)))));
      simpl; try reflexivity; lia.
  - intros E. apply H. unfold index. rewrite E. simpl.
    destruct (0 <=? currentModelIndex s), (currentModelIndex s <? 0);
      simpl; try reflexivity; now destruct (Z.to_nat (currentModelIndex s)).
Qed.

(** [loadNextModelClothes] on a model with an array of paths. *)
Lemma loadNextModelClothes_many e s m ps :
  index (models (options s)) (currentModelIndex s) = Some m ->
  path m = PathMany ps ->
  exists s' calls,
    loadNextModelClothes e s = Ok tt s' /\
    log s' = log s ++ calls /\
    tips s' = Tips.clear (tips s) /\
    currentModelIndex s' = currentModelIndex s /\
    store_modelIndex s' = store_modelIndex s /\
    written_modelIndexes calls = [] /\
    ~ In idlePlayer_start calls /\
    (forall msg, ~ In (statusBar_open msg) calls) /\
    In stage_slideOut calls.
Proof.
  destruct s; run_m. intros -> ->. repeat case_if;
    (eexists; eexists; split; [reflexivity|]);
    cbn [tips currentModelIndex store_modelIndex log];
    rewrite <- ?app_assoc;
    (split; [reflexivity|]);
    repeat (split; [reflexivity|]);
    simpl; intuition discriminate.
Qed.

(** X10. [loadNextModelClothes] does nothing at all on a model with a
    single path; on a model with an array of paths and a clothes index
    inside it, the clothes index, with its mirrors, moves to
    (current + 1) mod length and the model index stays. *)
Theorem loadNextModelClothes_cycles e s m :
  index (models (options s)) (currentModelIndex s) = Some m ->
  match path m with
  | PathOne _ => loadNextModelClothes e s = Ok tt s
  | PathMany ps =>
      0 <= currentModelClothesIndex s < Z.of_nat (List.length ps) ->
      exists s', loadNextModelClothes e s = Ok tt s' /\
        currentModelClothesIndex s'
        = (currentModelClothesIndex s + 1) mod Z.of_nat (List.length ps) /\
        models_modelClothesIndex s' = currentModelClothesIndex s' /\
        store_modelClothesIndex s' = currentModelClothesIndex s' /\
        currentModelIndex s' = currentModelIndex s /\
        store_modelIndex s' = store_modelIndex s
  end.
Proof.
  intros Hm.
  destruct (loadNextModelClothes_index e s m Hm)
    as (s' & Hrun & _ & H1 & _ & _ & H4 & Hp).
  destruct (path m) as [p|ps].
  - now subst s'.
  - intros Hc. destruct Hp as (H5 & H6 & H7). exists s'.
    split; [exact Hrun|]. split; [|auto]. rewrite H5.
    destruct (Z.geb_spec (currentModelClothesIndex s + 1) (Z.of_nat (List.length ps))).
    + replace (currentModelClothesIndex s + 1) with (Z.of_nat (List.length ps)) by lia.
      rewrite Z.mod_same by lia. reflexivity.
    + rewrite Z.mod_small by lia. reflexivity.
Qed.

(** X11. A clothes switch runs the workflow without the switching status
    and without restarting the idle player: the tips are cleared, the
    stage slides out, and afterwards the idle player, if there is one, is
    stopped. *)
Theorem loadNextModelClothes_leaves_idle_stopped e s m ps :
  index (models (options s)) (currentModelIndex s) = Some m ->
  path m = PathMany ps ->
  exists s' calls,
    loadNextModelClothes e s = Ok tt s' /\
    log s' = log s ++ calls /\
    In stage_slideOut calls /\
    ~ In idlePlayer_start calls /\
    (forall msg, ~ In (statusBar_open msg) calls) /\
    written_modelIndexes calls = [] /\
    Tips.idlePlayer (tips s') = stopped (Tips.idlePlayer (tips s)) /\
    Tips.priority (tips s') = 0.
Proof.
  intros Hm Hp.
  destruct (loadNextModelClothes_many e s m ps Hm Hp)
    as (s' & calls & Hrun & Hlog & Ht & _ & _ & Hw & Hn & Ho & Hin).
  exists s', calls. repeat (split; [assumption|]).
  rewrite Ht. split; [apply idlePlayer_clear | reflexivity].
Qed.

Lemma has_idlePlayer_clear x :
  has_idlePlayer (Tips.clear x) = has_idlePlayer x.
Proof.
  unfold has_idlePlayer. rewrite idlePlayer_clear. now destruct (Tips.idlePlayer x).
Qed.

Lemma restarted_with_player opts mi ci smi mmi mci sti stci px rt tp lg
      opts' mi' ci' smi' mmi' mci' sti' stci' px' rt' calls :
  has_idlePlayer (Tips.clear tp) = true ->
  calls = removelast calls ++ [idlePlayer_start] ->
  restarted (mk opts mi ci smi mmi mci sti stci px rt tp lg)
            (mk opts' mi' ci' smi' mmi' mci' sti' stci' px' rt'
                (Tips.idle_start (Tips.clear tp)) (lg ++ calls)).
Proof.
  intros H Hc. rewrite has_idlePlayer_clear in H. unfold has_idlePlayer in H.
  unfold restarted. cbn [tips log].
  split; [apply idle_start_clear|]. split; [apply idle_start_clear|].
  exists calls. split; [reflexivity|].
  destruct (Tips.idlePlayer tp); [now exists (removelast calls) | discriminate].
Qed.

Lemma restarted_without_player opts mi ci smi mmi mci sti stci px rt tp lg
      opts' mi' ci' smi' mmi' mci' sti' stci' px' rt' calls :
  has_idlePlayer (Tips.clear tp) = false ->
  ~ In idlePlayer_start calls ->
  restarted (mk opts mi ci smi mmi mci sti stci px rt tp lg)
            (mk opts' mi' ci' smi' mmi' mci' sti' stci' px' rt'
                (Tips.clear tp) (lg ++ calls)).
Proof.
  intros H Hn. rewrite has_idlePlayer_clear in H. unfold has_idlePlayer in H.
  unfold restarted. cbn [tips log]. rewrite idlePlayer_clear.
  destruct (Tips.idlePlayer tp) eqn:E; [discriminate|].
  split; [reflexivity|]. split; [reflexivity|].
  exists calls. split; [reflexivity | exact Hn].
Qed.

Ltac restarted_done :=
  eexists; split; [reflexivity|]; rewrite <- ?app_assoc;
  first
    [ apply restarted_with_player; [assumption | reflexivity]
    | apply restarted_without_player;
      [assumption | simpl; intuition discriminate] ].

(** X12. [reloadModel], [loadNextModel], [loadRandomModel] and an accepted
    [loadModelByIndex] end with [idlePlayer?.start()], whatever the
    workflow did (empty catalog, mobile rest, failed or successful load):
    with an idle player, its start is the last call of the operation and
    it is left asked to run; without one, no such call is made.  No tip
    priority is held afterwards. *)
Theorem switches_restart_idle_player e s :
  (exists s', reloadModel e s = Ok tt s' /\ restarted s s') /\
  (exists s', loadNextModel e s = Ok tt s' /\ restarted s s') /\
  (forall r, exists s', loadRandomModel e r s = Ok tt s' /\ restarted s s') /\
  (forall i c, 0 <= i < length_models (options s) ->
               exists s', loadModelByIndex e i c s = Ok tt s' /\ restarted s s').
Proof.
  split; [exec s; restarted_done|].
  split; [exec s; restarted_done|].
  split; [intros r; exec s; restarted_done|].
  intros i c Hi. apply in_bounds_test in Hi.
  unfold loadModelByIndex, bind at 1, gets. rewrite Hi. clear Hi.
  exec s; restarted_done.
Qed.

(** X13. A run of the workflow that returns before the load, on an empty
    catalog or when hidden on mobile, leaves the tips exactly as [clear()]
    leaves them, whichever callback it was given, and changes nothing else
    but the call log: no load is issued and the tips are not re-attached. *)
Theorem loadModel_early_return_clears_tips e cb s :
  models (options s) = [] \/
  (mobileDisplay (options s) = false /\ windowSizeType e = mobile) ->
  exists s' calls,
    loadModel e cb s = Ok tt s' /\
    log s' = log s ++ calls /\
    tips s' = Tips.clear (tips s) /\
    ~ In models_create calls /\ ~ In tips_reload calls /\
    retry s' = retry s /\
    same_selection s s'.
Proof.
  intros [E | [Hmd Hw]]; destruct s; cbn [options] in *; run_m.
  - unfold length_models. rewrite E. simpl.
    exists_state. rewrite <- ?app_assoc. split; [reflexivity|].
    split; [reflexivity|]. repeat split; simpl; intuition discriminate.
  - destruct (length_models options0 =? 0); simpl; rewrite ?Hmd, ?Hw; simpl;
      exists_state; rewrite <- ?app_assoc; (split; [reflexivity|]);
      (split; [reflexivity|]); repeat split; simpl; intuition discriminate.
Qed.

(** X14. [reloadModel], and so the retry action of the error status,
    replays the current selection: nothing is written to the store, and
    the selection and all its mirrors are as before. *)
Theorem reloadModel_writes_nothing e s :
  (exists s' calls,
     reloadModel e s = Ok tt s' /\ log s' = log s ++ calls /\
     written_modelIndexes calls = [] /\ written_clothesIndexes calls = [] /\
     same_selection s s') /\
  (exists s' calls,
     run_retry e s = Ok tt s' /\ log s' = log s ++ calls /\
     written_modelIndexes calls = [] /\ written_clothesIndexes calls = [] /\
     same_selection s s').
Proof.
  assert (H : exists s' calls,
     reloadModel e s = Ok tt s' /\ log s' = log s ++ calls /\
     written_modelIndexes calls = [] /\ written_clothesIndexes calls = [] /\
     same_selection s s').
  { exec s; (eexists; eexists; split; [reflexivity|]);
      cbn [log]; rewrite <- ?app_assoc; (split; [reflexivity|]);
      repeat split. }
  split; [exact H|].
  unfold run_retry, bind, gets. destruct (retry s) as [[]|]; [exact H|].
  exists s, []. rewrite app_nil_r. repeat split.
Qed.

Lemma findIndex_from_none {A} (p : A -> bool) (l : list A) :
  forall i, (forall a, In a l -> p a = false) -> findIndex_from p l i = -1.
Proof.
  induction l as [|x l IH]; intros i H; simpl; [reflexivity|].
  rewrite (H x (or_introl eq_refl)). apply IH. intros a Ha. apply H. now right.
Qed.

Lemma findIndex_from_first {A} (p : A -> bool) (pre : list A) a post :
  forall i, (forall b, In b pre -> p b = false) -> p a = true ->
            findIndex_from p (pre ++ a :: post) i = i + Z.of_nat (List.length pre).
Proof.
  induction pre as [|x pre IH]; intros i Hpre Ha; simpl.
  - rewrite Ha. lia.
  - rewrite (Hpre x (or_introl eq_refl)).
    rewrite IH; [lia | | exact Ha]. intros b Hb. apply Hpre. now right.
Qed.

Lemma index_app_middle {A} (pre : list A) a post :
  index (pre ++ a :: post) (Z.of_nat (List.length pre)) = Some a.
Proof.
  unfold index. rewrite length_app. simpl.
  rewrite (proj2 (Z.leb_le _ _)) by lia. rewrite (proj2 (Z.ltb_lt _ _)) by lia.
  simpl. rewrite Nat2Z.id, nth_error_app2 by lia. now rewrite Nat.sub_diag.
Qed.

(** X15. A name that no catalog entry carries makes [loadModelByName]
    return normally with the whole state as it was: no error, no call, no
    change of selection. *)
Theorem loadModelByName_unknown e n clothes s :
  (forall m, In m (models (options s)) -> name m <> n) ->
  loadModelByName e n clothes s = Ok tt s.
Proof.
  intros H. unfold loadModelByName, bind at 1, gets. unfold findIndex.
  rewrite findIndex_from_none; [reflexivity|].
  intros m Hm. destruct (String.eqb_spec (name m) n); [|reflexivity].
  exfalso. exact (H m Hm e0).
Qed.

(** X16. When the first catalog entry carrying the name is not the first
    entry of the catalog, [loadModelByName] selects it: the model index,
    in the orchestrator and in the store, is the position of that first
    match, the clothes index is the given one or 0, and the idle player
    is restarted. *)
Theorem loadModelByName_first_match e n clothes s pre m post :
  models (options s) = pre ++ m :: post ->
  pre <> [] ->
  (forall m', In m' pre -> name m' <> n) ->
  name m = n ->
  exists s', loadModelByName e n clothes s = Ok tt s' /\
    currentModelIndex s' = Z.of_nat (List.length pre) /\
    store_modelIndex s' = Z.of_nat (List.length pre) /\
    index (models (options s')) (currentModelIndex s') = Some m /\
    currentModelClothesIndex s' = or_zero clothes /\
    store_modelClothesIndex s' = or_zero clothes.
Proof.
  intros Hmod Hne Hpre Hm.
  assert (Hk : findIndex (fun item => (name item =? n)%string) (models (options s))
               = Z.of_nat (List.length pre)).
  { unfold findIndex. rewrite Hmod, findIndex_from_first; [lia| |].
    - intros b Hb. destruct (String.eqb_spec (name b) n); [|reflexivity].
      exfalso. exact (Hpre b Hb e0).
    - now apply String.eqb_eq. }
  destruct (select_and_load e (Z.of_nat (List.length pre)) (or_zero clothes)
              (switchingMessage (options s)) s)
    as (s' & Hrun & Ho & (H1 & _ & _ & H4) & (H5 & _ & H7) & _).
  exists s'. split.
  - unfold loadModelByName, bind at 1, gets. rewrite Hk.
    destruct (Z.gtb_spec (Z.of_nat (List.length pre)) 0) as [_|Hle]; [exact Hrun|].
    exfalso. destruct pre; [congruence | simpl in Hle; lia].
  - repeat (split; [assumption|]). split; [|auto].
    rewrite Ho, H1, Hmod. apply index_app_middle.
Qed.

Lemma loadNextModel_mod e s :
  0 <= currentModelIndex s < length_models (options s) ->
  exists s1, loadNextModel e s = Ok tt s1 /\
    options s1 = options s /\
    currentModelIndex s1 = (currentModelIndex s + 1) mod length_models (options s) /\
    store_modelIndex s1 = currentModelIndex s1.
Proof.
  intros Hr.
  destruct (loadNextModel_index e s) as (s1 & Hrun & Ho & Hi & _ & _ & Hst1 & _).
  exists s1. split; [exact Hrun|]. split; [exact Ho|]. split; [|exact Hst1].
  rewrite Hi.
  destruct (Z.geb_spec (currentModelIndex s + 1) (length_models (options s))).
  - replace (currentModelIndex s + 1) with (length_models (options s)) by lia.
    now rewrite Z.mod_same by lia.
  - now rewrite Z.mod_small by lia.
Qed.

Lemma run_ops_next_cons e envs s s1 :
  loadNextModel e s = Ok tt s1 ->
  run_ops (map OpNext (e :: envs)) s = run_ops (map OpNext envs) s1.
Proof.
  intros Hrun.
  change (run_ops (map OpNext (e :: envs)) s)
    with (bind (loadNextModel e) (fun _ => run_ops (map OpNext envs)) s).
  unfold bind. now rewrite Hrun.
Qed.

Lemma loadNextModel_iterated_from envs : forall s,
  0 <= currentModelIndex s < length_models (options s) ->
  store_modelIndex s = currentModelIndex s ->
  exists s', run_ops (map OpNext envs) s = Ok tt s' /\
    options s' = options s /\
    currentModelIndex s'
    = (currentModelIndex s + Z.of_nat (List.length envs)) mod length_models (options s) /\
    store_modelIndex s' = currentModelIndex s'.
Proof.
  induction envs as [|e envs IH]; intros s Hr Hst.
  - exists s. simpl. rewrite Z.add_0_r, Z.mod_small by lia. auto.
  - destruct (loadNextModel_mod e s Hr) as (s1 & Hrun & Ho & Hi1 & Hst1).
    destruct (IH s1) as (s' & Hrun' & Ho' & Hi' & Hst').
    + rewrite Ho, Hi1. apply Z.mod_pos_bound. lia.
    + exact Hst1.
    + exists s'. split; [rewrite (run_ops_next_cons e envs s s1 Hrun); exact Hrun'|].
      split; [congruence|]. split; [|exact Hst'].
      rewrite Hi', Ho, Hi1, Z.add_mod_idemp_l by lia.
      f_equal. simpl List.length. lia.
Qed.

(** X17. Calling [loadNextModel] k times from an index of the catalog,
    whatever each load does, moves the model index to (current + k) mod
    length, and the store follows; after as many calls as the catalog has
    entries the index is back where it started. *)
Theorem loadNextModel_iterated envs s :
  0 <= currentModelIndex s < length_models (options s) ->
  exists s', run_ops (map OpNext envs) s = Ok tt s' /\
    currentModelIndex s'
    = (currentModelIndex s + Z.of_nat (List.length envs)) mod length_models (options s) /\
    (envs <> [] -> store_modelIndex s' = currentModelIndex s') /\
    (Z.of_nat (List.length envs) = length_models (options s) ->
     currentModelIndex s' = currentModelIndex s).
Proof.
  intros Hr.
  assert (H : exists s', run_ops (map OpNext envs) s = Ok tt s' /\
    currentModelIndex s'
    = (currentModelIndex s + Z.of_nat (List.length envs)) mod length_models (options s) /\
    (envs <> [] -> store_modelIndex s' = currentModelIndex s')).
  { destruct envs as [|e envs].
    - exists s. simpl. rewrite Z.add_0_r, Z.mod_small by lia.
      repeat split. intros E. congruence.
    - destruct (loadNextModel_mod e s Hr) as (s1 & Hrun & Ho & Hi1 & Hst1).
      destruct (loadNextModel_iterated_from envs s1) as (s' & Hrun' & Ho' & Hi' & Hst').
      + rewrite Ho, Hi1. apply Z.mod_pos_bound. lia.
      + exact Hst1.
      + exists s'. split; [rewrite (run_ops_next_cons e envs s s1 Hrun); exact Hrun'|].
        split; [|intros _; exact Hst'].
        rewrite Hi', Ho, Hi1, Z.add_mod_idemp_l by lia.
        f_equal. simpl List.length. lia. }
  destruct H as (s' & Hrun & Hi & Hst). exists s'.
  split; [exact Hrun|]. split; [exact Hi|]. split; [exact Hst|].
  intros E. rewrite Hi, E.
  replace (currentModelIndex s + length_models (options s))
    with (currentModelIndex s + 1 * length_models (options s)) by lia.
  rewrite Z.mod_add by lia. apply Z.mod_small. lia.
Qed.

(** X18. On an empty catalog nothing is ever loaded or shown: [reloadModel]
    only clears the tips, slides the stage out and, if there is an idle
    player, restarts it; [loadNextModel] from index 0 onwards does the same
    after bringing the index to 0 and opening the switching status; and
    [loadModelByIndex] ignores every index. *)
Theorem empty_catalog_switches e s :
  models (options s) = [] ->
  (exists s', reloadModel e s = Ok tt s' /\
     log s' = log s ++ [tips_clear; stage_slideOut] ++
              (if has_idlePlayer (tips s) then [idlePlayer_start] else [])) /\
  (0 <= currentModelIndex s ->
   exists s', loadNextModel e s = Ok tt s' /\
     currentModelIndex s' = 0 /\ store_modelIndex s' = 0 /\
     log s' = log s ++
       [store_updateModelCurrentIndex (currentModelIndex s + 1);
        store_updateModelCurrentIndex 0;
        store_updateModelCurrentClothesIndex 0;
        statusBar_open (switchingMessage (options s));
        tips_clear; stage_slideOut] ++
       (if has_idlePlayer (tips s) then [idlePlayer_start] else [])) /\
  (forall i clothes, loadModelByIndex e i clothes s = Ok tt s).
Proof.
  intros E.
  assert (Hlen : length_models (options s) = 0)
    by (unfold length_models; now rewrite E).
  split; [|split].
  - destruct s; run_m. cbn [options] in Hlen. rewrite Hlen. simpl.
    rewrite has_idlePlayer_clear. cbn [tips].
    destruct (has_idlePlayer tips0);
      (eexists; split; [reflexivity|]); cbn [log]; now rewrite <- !app_assoc.
  - intros Hc. destruct s; run_m. cbn [options currentModelIndex] in Hlen, Hc.
    rewrite Hlen.
    match goal with |- context [?a >=? 0] =>
      destruct (Z.geb_spec a 0) as [_|Hneg]; [|lia] end.
    simpl. rewrite Hlen. simpl. rewrite has_idlePlayer_clear. cbn [tips].
    destruct (has_idlePlayer tips0);
      (eexists; split; [reflexivity|]); (split; [reflexivity|]);
      (split; [reflexivity|]); cbn [log options currentModelIndex];
      now rewrite <- !app_assoc.
  - intros i clothes. apply loadModelByIndex_ignored. lia.
Qed.

(** X19. Every run of the workflow begins by clearing the tips and sliding
    the stage out, and it never mounts a model, hides the loading indicator
    or slides the stage in unless the catalog is non-empty, the widget is
    not hidden on mobile, and the load was issued in that run. *)
Theorem loadModel_shows_only_after_load e cb s :
  exists s' calls,
    loadModel e cb s = Ok tt s' /\
    log s' = log s ++ tips_clear :: stage_slideOut :: calls /\
    (In stage_slideIn calls \/ In pixiApp_mount calls \/
     In statusBar_hideLoading calls ->
     models (options s) <> [] /\
     ~ (mobileDisplay (options s) = false /\ windowSizeType e = mobile) /\
     In models_create calls).
Proof.
  destruct cb; exec s;
    (eexists; eexists; split; [reflexivity|]);
    cbn [log options]; rewrite <- ?app_assoc; (split; [reflexivity|]);
    simpl; intros Hshow;
    try (exfalso; intuition discriminate);
    (split; [|split; [|tauto]]);
    try (intros Hnil; unfold length_models in *;
         match goal with H : (Z.of_nat (List.length (models ?o)) =? 0) = false |- _ =>
           rewrite Hnil in H; discriminate H end);
    try (intros [Hmd Hw];
         match goal with H : negb (mobileDisplay ?o) && _ = false |- _ =>
           rewrite Hmd, Hw in H; discriminate H end).
Qed.

(** X20. The initial load: unless the initial status is 'sleep' it is the
    same run as a reload's; in 'sleep' it never slides the stage in, and
    when the load was issued it ends by clearing the tips, opening the
    status bar with the rest message and binding its click. *)
Theorem initial_load e s :
  (initialStatusSleep (options s) = false ->
   loadModel e CbInitial s = loadModel e CbSlideIn s) /\
  (initialStatusSleep (options s) = true ->
   exists s' calls,
     loadModel e CbInitial s = Ok tt s' /\
     log s' = log s ++ calls /\
     ~ In stage_slideIn calls /\
     (In models_create calls ->
      exists before,
        calls = before ++ [tips_clear; statusBar_open (restMessage (options s));
                           statusBar_setClickEvent])).
Proof.
  split; intros Hs; destruct s; cbn [options] in Hs.
  - run_m. repeat case_if; try reflexivity; congruence.
  - run_m. repeat case_if; try congruence;
      (eexists; eexists; split; [reflexivity|]);
      cbn [log]; rewrite <- ?app_assoc; (split; [reflexivity|]);
      (split; [simpl; intuition discriminate|]);
      simpl; intros Hin;
      try (exfalso; intuition discriminate).
    all: match goal with
         | |- exists before, ?l = _ =>
             exists (removelast (removelast (removelast l)))
         end; reflexivity.
Qed.

(** *** The idle player seen from the orchestrator *)

(** [reloadModel], with what it leaves of the tips. *)
Lemma reloadModel_tips e s :
  exists s' calls,
    reloadModel e s = Ok tt s' /\
    log s' = log s ++ calls /\
    options s' = options s /\
    (if has_idlePlayer (tips s)
     then tips s' = Tips.idle_start (Tips.clear (tips s)) /\
          calls = removelast calls ++ [idlePlayer_start]
     else tips s' = Tips.clear (tips s) /\ ~ In idlePlayer_start calls).
Proof.
  destruct s; run_m; cbn [tips].
  rewrite <- (has_idlePlayer_clear tips0).
  repeat case_if; exists_state; rewrite <- ?app_assoc;
    (split; [reflexivity|]); (split; [reflexivity|]);
    first [ split; reflexivity
          | split; [reflexivity | simpl; intuition discriminate] ].
Qed.

(** A tick of the idle player touches the tips only. *)
Lemma idle_tick_tips e s tip :
  tipsOptions (options s) = Some tip ->
  exists s', idle_tick e s = Ok tt s' /\
    tips s' = Tips.tick (idleTips tip) e (tips s) /\
    log s' = log s /\ options s' = options s /\ same_selection s s'.
Proof.
  intros H. destruct s. cbn [options] in H. unfold idle_tick. run_m.
  rewrite H. eexists. split; [reflexivity|]. repeat split.
Qed.

End Oml2dFacts.

(** ** The idle player *)

Section IdleFacts.

Import Tips.

Lemma idlePlayer_showMessage msg d p x :
  idlePlayer (showMessage msg d p x) = idlePlayer x.
Proof.
  unfold showMessage. destruct (p <? priority x); [reflexivity|].
  simpl. destruct (closeTimer x =? 0); reflexivity.
Qed.

Lemma idlePlayer_idle_stop x b :
  idlePlayer x = Some b -> idlePlayer (idle_stop x) = Some false.
Proof. unfold idle_stop. now intros ->. Qed.

Lemma truthy_string_nonempty s : s <> "" -> truthy_string s = true.
Proof.
  intros H. unfold truthy_string. destruct (String.eqb_spec s ""); [contradiction | reflexivity].
Qed.

(** The callback on an empty result calls [stop()] and does nothing else. *)
Lemma tick_on_empty o e x : idle_message o e = "" -> tick o e x = idle_stop x.
Proof.
  intros E. unfold tick, idle_callback, idle_stop. rewrite E. simpl.
  now destruct (idlePlayer x).
Qed.

(** The callback on a message passes it to [showMessage]. *)
Lemma tick_on_message o e x :
  idle_message o e <> "" -> idlePlayer x <> None ->
  tick o e x = showMessage (idle_message o e) (idle_duration o) (idle_priority o) x.
Proof.
  intros Hm Hx. unfold tick, idle_callback.
  rewrite (truthy_string_nonempty _ Hm). now destruct (idlePlayer x).
Qed.

Lemma idle_stop_idempotent x : idle_stop (idle_stop x) = idle_stop x.
Proof.
  unfold idle_stop. destruct (idlePlayer x) eqn:E; simpl; [reflexivity | now rewrite E].
Qed.

Lemma wf_idle_start_clear x : wf x -> wf (idle_start (clear x)).
Proof. intros H. now apply wf_idle_start, wf_clear. Qed.

(** C4 (amended). When the message source yields an empty result on a
    tick, the callback shows no message and calls [stop()] on the idle
    timer, and nothing else changes: content, priority, pending timeouts,
    selection and call log are as before.  That stop is not for good:
    [reloadModel] ends by calling [start()] on the same timer, and a tick
    after it whose source yields a message shows that message. *)
Theorem idle_empty_tick_then_restart e s tip :
  tipsOptions (Oml2d.options s) = Some tip ->
  idlePlayer (Oml2d.tips s) <> None ->
  wf (Oml2d.tips s) ->
  0 <= idle_priority (idleTips tip) ->
  idle_message (idleTips tip) e = "" ->
  exists s1,
    Oml2d.idle_tick e s = Oml2d.Ok tt s1 /\
    idle_output (idleTips tip) (EvTick e) (Oml2d.tips s) = [] /\
    Oml2d.tips s1 = idle_stop (Oml2d.tips s) /\
    idlePlayer (Oml2d.tips s1) = Some false /\
    content (Oml2d.tips s1) = content (Oml2d.tips s) /\
    priority (Oml2d.tips s1) = priority (Oml2d.tips s) /\
    timers (Oml2d.tips s1) = timers (Oml2d.tips s) /\
    Oml2d.log s1 = Oml2d.log s /\
    same_selection s s1 /\
    forall env, exists s2 before,
      Oml2d.reloadModel env s1 = Oml2d.Ok tt s2 /\
      Oml2d.log s2 = Oml2d.log s1 ++ before ++ [idlePlayer_start] /\
      idlePlayer (Oml2d.tips s2) = Some true /\
      forall e2, idle_message (idleTips tip) e2 <> "" ->
        exists s3,
          Oml2d.idle_tick e2 s2 = Oml2d.Ok tt s3 /\
          content (Oml2d.tips s3) = idle_message (idleTips tip) e2 /\
          priority (Oml2d.tips s3) = idle_priority (idleTips tip).
Proof.
  intros Htip Hx Hwf Hprio He.
  destruct (idle_tick_tips e s tip Htip) as (s1 & Hrun1 & Ht1 & Hl1 & Ho1 & Hs1).
  rewrite (tick_on_empty _ _ _ He) in Ht1.
  destruct (idle_stop_fields (Oml2d.tips s)) as (Fc & _ & Fp & _ & _ & Ft & _).
  assert (Hi1 : idlePlayer (Oml2d.tips s1) = Some false).
  { rewrite Ht1. destruct (idlePlayer (Oml2d.tips s)) as [b|] eqn:E; [|congruence].
    now apply idlePlayer_idle_stop with b. }
  exists s1. split; [exact Hrun1|].
  split; [unfold idle_output; rewrite He; now destruct (idlePlayer (Oml2d.tips s))|].
  split; [exact Ht1|]. split; [exact Hi1|].
  rewrite Ht1. repeat (split; [assumption|]).
  intros env.
  destruct (reloadModel_tips env s1) as (s2 & calls & Hrun2 & Hl2 & Ho2 & Hcase).
  assert (Hhas : Oml2d.has_idlePlayer (Oml2d.tips s1) = true)
    by (unfold Oml2d.has_idlePlayer; now rewrite Hi1).
  rewrite Hhas in Hcase. destruct Hcase as (Ht2 & Hcalls).
  exists s2, (removelast calls). split; [exact Hrun2|].
  split; [now rewrite Hl2, Hcalls at 1|].
  assert (Hi2 : idlePlayer (Oml2d.tips s2) = Some true).
  { rewrite Ht2. rewrite (proj1 (idle_start_clear _)), Hi1. reflexivity. }
  split; [exact Hi2|].
  intros e2 Hm.
  assert (Htip2 : tipsOptions (Oml2d.options s2) = Some tip) by congruence.
  destruct (idle_tick_tips e2 s2 tip Htip2) as (s3 & Hrun3 & Ht3 & _).
  exists s3. split; [exact Hrun3|].
  rewrite Ht3, tick_on_message by (try assumption; congruence).
  assert (Hwf2 : wf (Oml2d.tips s2)).
  { rewrite Ht2, Ht1. now apply wf_idle_start_clear, wf_idle_stop. }
  rewrite showMessage_accepted; [split; reflexivity | exact Hwf2 |].
  rewrite Ht2, (proj2 (idle_start_clear _)). exact Hprio.
Qed.

Lemma ticks_empty_pool o es : forall x,
  (forall e, idle_message o e = "") ->
  ticks o es x = match es with [] => x | _ => idle_stop x end.
Proof.
  unfold ticks. induction es as [|e es IH]; intros x H; [reflexivity|].
  simpl. rewrite (tick_on_empty o e x (H e)). rewrite IH by assumption.
  destruct es; [reflexivity | apply idle_stop_idempotent].
Qed.

(** X7. With the word of the day off and an empty or missing message
    list, which is the default configuration, every tick of the idle
    callback shows nothing and only calls [stop()] on the timer: however
    many ticks there are, content, priority, animation and pending
    timeouts stay as they were. *)
Theorem idle_tick_empty_pool o es x :
  wordTheDay o = WtdOff ->
  message o = PoolList [] \/ message o = PoolUndefined ->
  (forall e, tick o e x = idle_stop x /\ idle_output o (EvTick e) x = []) /\
  content (ticks o es x) = content x /\
  priority (ticks o es x) = priority x /\
  animationName (ticks o es x) = animationName x /\
  timers (ticks o es x) = timers x /\
  (es <> [] -> idlePlayer (ticks o es x) = stopped (idlePlayer x)).
Proof.
  intros Hw Hm.
  assert (E : forall e, idle_message o e = "").
  { intros e. unfold idle_message. rewrite Hw. destruct Hm as [-> | ->]; reflexivity. }
  destruct (idle_stop_fields x) as (Fc & Fa & Fp & _ & _ & Ft & _).
  split.
  - intros e. split; [now apply tick_on_empty|].
    unfold idle_output. rewrite E. now destruct (idlePlayer x).
  - rewrite (ticks_empty_pool o es x E).
    destruct es as [|e es]; repeat split; try assumption; try congruence.
    intros _. apply idlePlayer_idle_stop_eq.
Qed.

(** X8. With the word of the day off and a list of non-empty messages, a
    tick never stops the running idle player.  If the displayed priority is
    not above the idle priority, the tick shows one of the listed messages
    at the idle priority; if it is above, the tick changes nothing, so an
    idle message never replaces a message of higher priority. *)
Theorem idle_tick_literal_pool o l e x :
  wordTheDay o = WtdOff -> message o = PoolList l ->
  l <> [] -> (forall s, In s l -> s <> "") ->
  idlePlayer x = Some true -> wf x ->
  idlePlayer (tick o e x) = Some true /\
  (priority x <= idle_priority o ->
   In (content (tick o e x)) l /\ priority (tick o e x) = idle_priority o) /\
  (idle_priority o < priority x -> tick o e x = x).
Proof.
  intros Hw Hm Hne Hall Hx Hwf.
  destruct (getRandomArrayItem_member l (randomPick e) Hne) as (s & Hs & Hin).
  assert (E : idle_message o e = s).
  { unfold idle_message. rewrite Hw, Hm, Hs. reflexivity. }
  assert (Ht : tick o e x = showMessage s (idle_duration o) (idle_priority o) x).
  { unfold tick, idle_callback. rewrite Hx, E.
    now rewrite (truthy_string_nonempty s (Hall s Hin)). }
  rewrite Ht. split; [now rewrite idlePlayer_showMessage|]. split.
  - intros Hp. rewrite showMessage_accepted by assumption. simpl. auto.
  - intros Hp. now apply showMessage_rejected.
Qed.

(** A tick under a displayed priority above the idle one shows nothing. *)
Lemma tick_below_displayed o e x :
  idle_priority o < priority x -> tick o e x = x \/ tick o e x = idle_stop x.
Proof.
  intros Hp. unfold tick, idle_callback.
  destruct (idlePlayer x); [|now left].
  destruct (truthy_string _); [left; now apply showMessage_rejected | now right].
Qed.

Lemma ticks_below_displayed o es : forall x,
  idle_priority o < priority x ->
  content (ticks o es x) = content x /\
  priority (ticks o es x) = priority x /\
  animationName (ticks o es x) = animationName x /\
  timers (ticks o es x) = timers x.
Proof.
  unfold ticks. induction es as [|e es IH]; intros x Hp; [repeat split|].
  simpl. destruct (idle_stop_fields x) as (Fc & Fa & Fp & _ & _ & Ft & _).
  destruct (tick_below_displayed o e x Hp) as [-> | ->].
  - now apply IH.
  - destruct (IH (idle_stop x)) as (H1 & H2 & H3 & H4); [now rewrite Fp|].
    repeat split; congruence.
Qed.

(** X21. An accepted notification whose priority is above the idle
    priority is not displaced by the idle player: however many ticks of
    the idle callback follow, also from callbacks already under way when
    [notification] called [stop()], the content, the priority and the
    pending timeouts stay those of the notification. *)
Theorem idle_ticks_keep_notification o msg d p x es :
  wf x -> priority x <= p -> idle_priority o < p ->
  content (ticks o es (notification msg d p x)) = msg /\
  priority (ticks o es (notification msg d p x)) = p /\
  animationName (ticks o es (notification msg d p x)) = display_animation /\
  timers (ticks o es (notification msg d p x)) = timers (notification msg d p x).
Proof.
  intros Hwf Hp Hlow.
  destruct (notification_accepted msg d p x Hwf Hp) as (Hc & Hpr & _).
  destruct (ticks_below_displayed o es (notification msg d p x))
    as (H1 & H2 & H3 & H4); [now rewrite Hpr|].
  split; [congruence|]. split; [congruence|]. split; [|exact H4].
  rewrite H3. unfold notification, setTimeout.
  rewrite (showMessage_accepted msg d p (idle_stop x) (wf_idle_stop x Hwf)).
  - reflexivity.
  - destruct (idle_stop_fields x) as (_ & _ & Fp & _). lia.
Qed.

End IdleFacts.

(** ** The theorems at concrete inputs *)

Section Instances.

Import Oml2d.

Lemma tips_showing_wf : Tips.wf tips_showing.
Proof.
  unfold Tips.wf. change (Tips.timers tips_showing) with [mkTimer 1 3000 HideTips].
  change (Tips.closeTimer tips_showing) with 1.
  change (Tips.nextTimer tips_showing) with 2.
  split; [lia|]. split; intros tm [<-|[]]; simpl; [lia | split; reflexivity].
Defined.

Lemma showMessage_spec_witness :
  Tips.wf tips_showing /\
  Tips.showMessage "low" 3000 1 tips_showing = tips_showing /\
  Tips.content (Tips.showMessage "second" 5000 3 tips_showing) = "second" /\
  Tips.priority (Tips.showMessage "second" 5000 3 tips_showing) = 3 /\
  Tips.pending_hides (Tips.showMessage "second" 5000 3 tips_showing)
  = [mkTimer 2 5000 HideTips].
Proof.
  split; [exact tips_showing_wf|].
  split.
  - apply (proj1 (showMessage_spec "low" 3000 1 tips_showing tips_showing_wf)).
    simpl. lia.
  - destruct (proj2 (showMessage_spec "second" 5000 3 tips_showing tips_showing_wf))
      as (H1 & H2 & _ & H4 & _); [simpl; lia|].
    split; [exact H1|]. split; [exact H2 | exact H4].
Defined.

Lemma loadModelByIndex_out_of_range_witness :
  (2 < 0 \/ 2 >= length_models (options (mounted (options_of catalog_AB true) 0 0))) /\
  loadModelByIndex env_pc_ok 2 None (mounted (options_of catalog_AB true) 0 0)
  = Ok tt (mounted (options_of catalog_AB true) 0 0).
Proof.
  assert (H : 2 < 0 \/
              2 >= length_models (options (mounted (options_of catalog_AB true) 0 0)))
    by (right; unfold length_models; simpl; lia).
  split; [exact H|].
  exact (loadModelByIndex_out_of_range env_pc_ok 2 None _ H).
Defined.

Lemma loadModelByIndex_in_bounds_witness :
  exists s', loadModelByIndex env_pc_ok 1 None
               (mounted (options_of catalog_AB true) 0 0) = Ok tt s' /\
             store_modelIndex s' = 1 /\ store_modelClothesIndex s' = 0.
Proof.
  assert (H : 0 <= 1 <
              length_models (options (mounted (options_of catalog_AB true) 0 0)))
    by (unfold length_models; simpl; lia).
  destruct (loadModelByIndex_in_bounds env_pc_ok 1 None _ H)
    as (s' & Hrun & H1 & _ & _ & _ & _ & _ & _ & _ & H9).
  exists s'. split; [exact Hrun|]. split; [exact H1|].
  exact (proj1 (H9 eq_refl)).
Defined.

Lemma loadNextModel_cycles_witness :
  exists s', loadNextModel env_pc_ok (mounted (options_of catalog_AB true) 1 0)
             = Ok tt s' /\
             currentModelIndex s' = 0 /\ store_modelIndex s' = 0.
Proof.
  assert (H : 0 <= currentModelIndex (mounted (options_of catalog_AB true) 1 0) <
              length_models (options (mounted (options_of catalog_AB true) 1 0)))
    by (unfold length_models; simpl; lia).
  destruct (loadNextModel_cycles env_pc_ok _ H) as (s' & Hrun & _ & _ & Hlast & _).
  exists s'. split; [exact Hrun|]. apply Hlast. reflexivity.
Defined.

Lemma loadModel_mobile_hidden_witness :
  exists s', loadModel env_mobile CbSlideIn (mounted (options_of catalog_A false) 0 0)
             = Ok tt s' /\
             log s' = [tips_clear; stage_slideOut; statusBar_rest].
Proof.
  destruct (loadModel_mobile_hidden env_mobile CbSlideIn
              (mounted (options_of catalog_A false) 0 0))
    as (s' & Hrun & Hlog & _); [simpl; discriminate | reflexivity | reflexivity |].
  exists s'. split; [exact Hrun | exact Hlog].
Defined.

Lemma catalog_AB_ok : catalog_ok (options_of catalog_AB true).
Proof.
  intros m [<-|[<-|[]]]; unfold variants; simpl; lia.
Defined.

Lemma selection_invariant_witness :
  exists s', run_ops [OpNext env_pc_ok; OpNextClothes env_pc_fail;
                      OpNextClothes env_pc_ok; OpByName env_mobile "B" (Some 1);
                      OpByIndex env_pc_ok 7 None; OpNext env_pc_ok]
                     (mounted (options_of catalog_AB true) 0 0) = Ok tt s' /\
             selection_ok s' /\ synced s'.
Proof.
  destruct (selection_invariant
              [OpNext env_pc_ok; OpNextClothes env_pc_fail;
               OpNextClothes env_pc_ok; OpByName env_mobile "B" (Some 1);
               OpByIndex env_pc_ok 7 None; OpNext env_pc_ok]
              (mounted (options_of catalog_AB true) 0 0))
    as (s' & Hrun & _ & Hsel & Hsyn).
  - exact catalog_AB_ok.
  - split; [unfold length_models; simpl; lia|].
    eexists. split; [reflexivity | unfold variants; simpl; lia].
  - repeat split.
  - repeat (apply Forall_cons || apply Forall_nil); simpl; try exact I.
    + intros m E. injection E as <-. unfold variants; simpl; lia.
    + intros m E. discriminate E.
  - exists s'. split; [exact Hrun|]. split; [exact Hsel | exact Hsyn].
Defined.

Lemma idle_empty_tick_then_restart_witness :
  exists s1 s2 s3,
    startTipsIdle (mounted (options_of catalog_A true) 0 0) = Ok tt s1 /\
    exists s1',
      idle_tick tick_empty s1 = Ok tt s1' /\
      Tips.idlePlayer (tips s1') = Some false /\
      Tips.content (tips s1') = "" /\
      reloadModel env_pc_ok s1' = Ok tt s2 /\
      Tips.idlePlayer (tips s2) = Some true /\
      idle_tick tick_hello s2 = Ok tt s3 /\
      Tips.content (tips s3) = "hello".
Proof.
  pose (s1 := state_of (startTipsIdle (mounted (options_of catalog_A true) 0 0))).
  assert (Hwf : Tips.wf (tips s1)) by (apply wf_init).
  assert (Hx : Tips.idlePlayer (tips s1) <> None) by (simpl; discriminate).
  assert (Hp : 0 <= idle_priority (idleTips sample_tips)) by (simpl; lia).
  destruct (idle_empty_tick_then_restart tick_empty s1 sample_tips
              eq_refl Hx Hwf Hp eq_refl)
    as (s1' & Hrun1 & _ & _ & Hi1 & Hc1 & _ & _ & _ & _ & Hre).
  destruct (Hre env_pc_ok) as (s2 & before & Hrun2 & _ & Hi2 & Htick).
  destruct (Htick tick_hello) as (s3 & Hrun3 & Hc3 & _); [simpl; discriminate|].
  exists s1, s2, s3. split; [reflexivity|].
  exists s1'. repeat (split; [assumption|]). exact Hc3.
Defined.

(** C4, as stated, fails, even if the timer is granted to tick only while
    the last call on it was [start()]: after the source has yielded an
    empty result and the callback has called [stop()], [reloadModel] calls
    [start()] on the same timer, and the next tick shows a message. *)
Lemma idle_player_restarts :
  ~ (forall o e x evs,
       Tips.idlePlayer x <> None -> Tips.idle_message o e = "" ->
       Tips.ticks_while_started o evs (Tips.tick o e x) = true ->
       Tips.idle_messages o evs (Tips.tick o e x) = []) /\
  (exists s1 s2 s3 s4,
     startTipsIdle (mounted (options_of catalog_A true) 0 0) = Ok tt s1 /\
     idle_tick tick_empty s1 = Ok tt s2 /\
     Tips.idlePlayer (tips s2) = Some false /\
     reloadModel env_pc_ok s2 = Ok tt s3 /\
     In idlePlayer_start (log s3) /\
     Tips.idlePlayer (tips s3) = Some true /\
     idle_tick tick_hello s3 = Ok tt s4 /\
     Tips.content (tips s4) = "hello").
Proof.
  split.
  - intros H.
    assert (Hx : Tips.idlePlayer (Tips.init 1000 (Some true)) <> None)
      by (simpl; discriminate).
    specialize (H sample_idleTips tick_empty (Tips.init 1000 (Some true))
                  [Tips.EvStart; Tips.EvTick tick_hello] Hx eq_refl eq_refl).
    discriminate H.
  - do 4 eexists.
    split; [reflexivity|]. split; [reflexivity|]. split; [reflexivity|].
    split; [vm_compute; reflexivity|]. split; [simpl; tauto|].
    split; [reflexivity|]. split; reflexivity.
Qed.

(** C8, as stated, fails: at the last index the pre-increment of
    [loadNextModel] hands the setter the catalog length before 0, and a
    clothes index given to [loadModelByIndex] reaches the setter, the
    model manager and the store unchecked. *)
Lemma setters_receive_out_of_range :
  (exists s', loadNextModel env_pc_ok (mounted (options_of catalog_AB true) 1 0)
              = Ok tt s' /\
              written_modelIndexes (log s') = [2; 0] /\
              length_models (options s') = 2) /\
  (exists s', loadModelByIndex env_pc_ok 0 (Some 5)
                (mounted (options_of catalog_AB true) 1 0) = Ok tt s' /\
              written_clothesIndexes (log s') = [5] /\
              store_modelClothesIndex s' = 5 /\
              models_modelClothesIndex s' = 5 /\
              index (models (options s')) (currentModelIndex s')
              = Some (mkModel "A" (PathOne "a.model")) /\
              variants (mkModel "A" (PathOne "a.model")) = 1 /\
              ~ selection_ok s').
Proof.
  split.
  - eexists. split; [vm_compute; reflexivity|]. split; reflexivity.
  - eexists. split; [vm_compute; reflexivity|].
    repeat (split; [reflexivity|]).
    intros (_ & m & Hm & Hc). simpl in Hm. injection Hm as <-.
    unfold variants in Hc; simpl in Hc. lia.
Qed.

(** C9, as stated, fails on an empty catalog: the run returns after the
    exit transition before the mobile test, and no resting status is
    shown. *)
Lemma loadModel_mobile_hidden_empty_catalog :
  mobileDisplay (options (mounted (options_of [] false) 0 0)) = false /\
  windowSizeType env_mobile = mobile /\
  exists s', loadModel env_mobile CbSlideIn (mounted (options_of [] false) 0 0)
             = Ok tt s' /\
             log s' = [tips_clear; stage_slideOut] /\
             ~ In statusBar_rest (log s').
Proof.
  split; [reflexivity|]. split; [reflexivity|].
  eexists. split; [vm_compute; reflexivity|]. split; [reflexivity|].
  simpl. intros [H|[H|[]]]; discriminate H.
Qed.

(** *** The further properties at concrete inputs *)

Lemma clear_spec_witness :
  Tips.priority (Tips.clear tips_showing) = 0 /\
  Tips.pending_hides (Tips.clear tips_showing) = [] /\
  Tips.content (Tips.showMessage "next" 1000 0 (Tips.clear tips_showing)) = "next".
Proof.
  destruct (clear_spec tips_showing tips_showing_wf)
    as (H1 & _ & _ & _ & H5 & _ & H7).
  split; [exact H1|]. split; [exact H5|]. apply H7. lia.
Defined.

Lemma stale_timeout_is_harmless_witness :
  Tips.fire 1 (Tips.showMessage "second" 5000 3 tips_showing)
  = Tips.showMessage "second" 5000 3 tips_showing.
Proof.
  destruct (stale_timeout_is_harmless "first" 3000 2 "second" 5000 3
              (Tips.init 1000 (Some true)) (wf_init 1000 (Some true)))
    as (_ & H & _); [simpl; lia | lia | exact H].
Defined.

Lemma negative_priority_never_shown_witness :
  Tips.showMessage "x" 1000 (-1)
    (Tips.run sample_idleTips [Tips.EvShow "a" 100 1; Tips.EvFire 1]
       (Tips.init 1000 (Some true)))
  = Tips.run sample_idleTips [Tips.EvShow "a" 100 1; Tips.EvFire 1]
      (Tips.init 1000 (Some true)).
Proof.
  assert (H : -1 < 0) by lia.
  exact (proj2 (negative_priority_never_shown sample_idleTips
                  [Tips.EvShow "a" 100 1; Tips.EvFire 1] 1000 (Some true)
                  "x" 1000 (-1) H)).
Defined.

Lemma notification_spec_witness :
  Tips.idlePlayer (Tips.notification "low" 3000 1 tips_showing) = Some false /\
  Tips.content (Tips.notification "low" 3000 1 tips_showing) = "first" /\
  Tips.content (Tips.notification "high" 3000 3 tips_showing) = "high".
Proof.
  destruct (notification_spec "low" 3000 1 tips_showing tips_showing_wf)
    as (H1 & _ & H3 & _).
  destruct (notification_spec "high" 3000 3 tips_showing tips_showing_wf)
    as (_ & _ & _ & H4).
  split; [exact H1|]. split.
  - apply H3. simpl. lia.
  - apply H4. simpl. lia.
Defined.

Lemma copy_spec_witness :
  Tips.copy sample_tips 7 tips_showing = tips_showing /\
  In (Tips.content (Tips.copy copy_tips 7 tips_showing)) ["copied"; "thanks"].
Proof.
  split.
  - exact (proj1 (copy_spec sample_tips 7 tips_showing) eq_refl).
  - apply (proj2 (copy_spec copy_tips 7 tips_showing));
      [discriminate | exact tips_showing_wf | simpl; lia].
Defined.

Lemma idle_tick_empty_pool_witness :
  Tips.content (Tips.ticks default_idleTips [tick_hello; tick_empty; tick_hello]
                  tips_showing) = "first" /\
  Tips.timers (Tips.ticks default_idleTips [tick_hello; tick_empty; tick_hello]
                 tips_showing) = Tips.timers tips_showing.
Proof.
  destruct (idle_tick_empty_pool default_idleTips [tick_hello; tick_empty; tick_hello]
              tips_showing eq_refl (or_introl eq_refl))
    as (_ & H2 & _ & _ & H5 & _).
  split; [exact H2 | exact H5].
Defined.

Lemma idle_tick_literal_pool_witness :
  Tips.idlePlayer (Tips.tick literal_idleTips tick_empty tips_showing) = Some true /\
  In (Tips.content (Tips.tick literal_idleTips tick_empty tips_showing)) ["hi"; "there"].
Proof.
  destruct (idle_tick_literal_pool literal_idleTips ["hi"; "there"] tick_empty
              tips_showing eq_refl eq_refl) as (H1 & H2 & _).
  - discriminate.
  - intros s [<-|[<-|[]]]; discriminate.
  - reflexivity.
  - exact tips_showing_wf.
  - split; [exact H1|]. apply H2. simpl. lia.
Defined.

Lemma idle_ticks_keep_notification_witness :
  Tips.content (Tips.ticks sample_idleTips [tick_hello; tick_empty; tick_hello]
                  (Tips.notification "n" 3000 3 tips_showing)) = "n" /\
  Tips.priority (Tips.ticks sample_idleTips [tick_hello; tick_empty; tick_hello]
                   (Tips.notification "n" 3000 3 tips_showing)) = 3.
Proof.
  destruct (idle_ticks_keep_notification sample_idleTips "n" 3000 3 tips_showing
              [tick_hello; tick_empty; tick_hello] tips_showing_wf)
    as (H1 & H2 & _); [simpl; lia | simpl; lia |].
  split; [exact H1 | exact H2].
Defined.

Lemma loadNextModelClothes_throws_witness :
  loadNextModelClothes env_pc_ok (mounted (options_of [] true) 0 0)
  = Throw TypeError (mounted (options_of [] true) 0 0).
Proof.
  assert (H : currentModelIndex (mounted (options_of [] true) 0 0) < 0 \/
              length_models (options (mounted (options_of [] true) 0 0))
              <= currentModelIndex (mounted (options_of [] true) 0 0))
    by (right; unfold length_models; simpl; lia).
  exact (proj1 (loadNextModelClothes_throws env_pc_ok _ H)).
Defined.

Lemma loadNextModelClothes_cycles_witness :
  exists s', loadNextModelClothes env_pc_ok (mounted (options_of catalog_AB true) 1 1)
             = Ok tt s' /\
             currentModelClothesIndex s' = 0 /\ store_modelClothesIndex s' = 0.
Proof.
  pose proof (loadNextModelClothes_cycles env_pc_ok
                (mounted (options_of catalog_AB true) 1 1)
                (mkModel "B" (PathMany ["b1.model"; "b2.model"])) eq_refl) as H.
  simpl in H. destruct H as (s' & Hrun & H1 & _ & H3 & _); [lia|].
  exists s'. split; [exact Hrun|]. split; [exact H1 | now rewrite H3].
Defined.

Lemma loadNextModelClothes_leaves_idle_stopped_witness :
  exists s', loadNextModelClothes env_pc_ok (mounted (options_of catalog_AB true) 1 0)
             = Ok tt s' /\
             Tips.idlePlayer (tips s') = Some false.
Proof.
  destruct (loadNextModelClothes_leaves_idle_stopped env_pc_ok
              (mounted (options_of catalog_AB true) 1 0)
              (mkModel "B" (PathMany ["b1.model"; "b2.model"]))
              ["b1.model"; "b2.model"] eq_refl eq_refl)
    as (s' & calls & Hrun & _ & _ & _ & _ & _ & Hi & _).
  exists s'. split; [exact Hrun | exact Hi].
Defined.

Lemma switches_restart_idle_player_witness :
  (exists s', loadModelByIndex env_pc_fail 1 None
                (mounted (options_of catalog_AB true) 0 0) = Ok tt s' /\
              Tips.idlePlayer (tips s') = Some true /\
              exists before, log s' = before ++ [idlePlayer_start]) /\
  (exists s', loadModelByIndex env_pc_fail 1 None (mounted options_no_tips 0 0)
              = Ok tt s' /\
              Tips.idlePlayer (tips s') = None /\
              ~ In idlePlayer_start (log s')).
Proof.
  assert (H : 0 <= 1 <
              length_models (options (mounted (options_of catalog_AB true) 0 0)))
    by (unfold length_models; simpl; lia).
  assert (H' : 0 <= 1 < length_models (options (mounted options_no_tips 0 0)))
    by (unfold length_models; simpl; lia).
  split.
  - destruct (proj2 (proj2 (proj2 (switches_restart_idle_player env_pc_fail
                (mounted (options_of catalog_AB true) 0 0)))) 1 None H)
      as (s' & Hrun & Hi & _ & calls & Hlog & before & Hcalls).
    exists s'. split; [exact Hrun|]. split; [exact Hi|].
    exists before. rewrite Hlog, Hcalls. reflexivity.
  - destruct (proj2 (proj2 (proj2 (switches_restart_idle_player env_pc_fail
                (mounted options_no_tips 0 0)))) 1 None H')
      as (s' & Hrun & Hi & _ & calls & Hlog & Hno).
    exists s'. split; [exact Hrun|]. split; [exact Hi|].
    rewrite Hlog. exact Hno.
Defined.

Lemma loadModelByName_unknown_witness :
  loadModelByName env_pc_ok "Z" None (mounted (options_of catalog_AB true) 1 0)
  = Ok tt (mounted (options_of catalog_AB true) 1 0).
Proof.
  apply loadModelByName_unknown.
  intros m [<-|[<-|[]]]; discriminate.
Defined.

Lemma loadModelByName_first_match_witness :
  exists s', loadModelByName env_pc_ok "B" (Some 1)
               (mounted (options_of catalog_AB true) 0 0) = Ok tt s' /\
             store_modelIndex s' = 1 /\ store_modelClothesIndex s' = 1.
Proof.
  destruct (loadModelByName_first_match env_pc_ok "B" (Some 1)
              (mounted (options_of catalog_AB true) 0 0)
              [mkModel "A" (PathOne "a.model")]
              (mkModel "B" (PathMany ["b1.model"; "b2.model"])) [])
    as (s' & Hrun & _ & H2 & _ & _ & H5).
  - reflexivity.
  - discriminate.
  - intros m' [<-|[]]. discriminate.
  - reflexivity.
  - exists s'. split; [exact Hrun|]. split; [exact H2 | exact H5].
Defined.

Lemma loadNextModel_iterated_witness :
  exists s', run_ops (map OpNext [env_pc_ok; env_pc_fail])
               (mounted (options_of catalog_AB true) 1 0) = Ok tt s' /\
             currentModelIndex s' = 1.
Proof.
  assert (H : 0 <= currentModelIndex (mounted (options_of catalog_AB true) 1 0) <
              length_models (options (mounted (options_of catalog_AB true) 1 0)))
    by (unfold length_models; simpl; lia).
  destruct (loadNextModel_iterated [env_pc_ok; env_pc_fail] _ H)
    as (s' & Hrun & _ & _ & Hback).
  exists s'. split; [exact Hrun|]. apply Hback. reflexivity.
Defined.

Lemma empty_catalog_switches_witness :
  exists s', loadNextModel env_pc_ok (mounted (options_of [] true) 0 0) = Ok tt s' /\
             currentModelIndex s' = 0 /\ ~ In stage_slideIn (log s') /\
             In idlePlayer_start (log s').
Proof.
  destruct (empty_catalog_switches env_pc_ok (mounted (options_of [] true) 0 0) eq_refl)
    as (_ & H & _).
  destruct H as (s' & Hrun & H0 & _ & Hlog); [simpl; lia|].
  exists s'. split; [exact Hrun|]. split; [exact H0|].
  rewrite Hlog. simpl. intuition discriminate.
Defined.

Lemma loadModel_early_return_clears_tips_witness :
  exists s', loadModel env_mobile CbInitial (mounted (options_of catalog_A false) 0 0)
             = Ok tt s' /\
             tips s' = Tips.clear (tips (mounted (options_of catalog_A false) 0 0)).
Proof.
  destruct (loadModel_early_return_clears_tips env_mobile CbInitial
              (mounted (options_of catalog_A false) 0 0))
    as (s' & calls & Hrun & _ & Ht & _).
  - right. split; reflexivity.
  - exists s'. split; [exact Hrun | exact Ht].
Defined.

Lemma loadModel_shows_only_after_load_witness :
  exists s' calls,
    loadModel env_pc_ok CbSlideIn (mounted (options_of catalog_A true) 0 0) = Ok tt s' /\
    log s' = tips_clear :: stage_slideOut :: calls /\
    In stage_slideIn calls /\ In models_create calls.
Proof.
  destruct (loadModel_shows_only_after_load env_pc_ok CbSlideIn
              (mounted (options_of catalog_A true) 0 0))
    as (s' & calls & Hrun & Hlog & Himp).
  assert (Hin : In stage_slideIn calls).
  { vm_compute in Hrun. injection Hrun as <-. simpl in Hlog.
    injection Hlog as <-. simpl. tauto. }
  exists s', calls. split; [exact Hrun|]. split; [exact Hlog|].
  split; [exact Hin|]. apply Himp. left. exact Hin.
Defined.

Lemma initial_load_witness :
  loadModel env_pc_ok CbInitial (mounted (options_of catalog_A true) 0 0)
  = loadModel env_pc_ok CbSlideIn (mounted (options_of catalog_A true) 0 0) /\
  exists s' calls,
    loadModel env_pc_ok CbInitial (mounted sleeping_options 0 0) = Ok tt s' /\
    log s' = calls /\ ~ In stage_slideIn calls.
Proof.
  split.
  - exact (proj1 (initial_load env_pc_ok (mounted (options_of catalog_A true) 0 0))
             eq_refl).
  - destruct (proj2 (initial_load env_pc_ok (mounted sleeping_options 0 0)) eq_refl)
      as (s' & calls & Hrun & Hlog & Hno & _).
    exists s', calls. split; [exact Hrun|]. split; [exact Hlog | exact Hno].
Defined.

End Instances.
